(** * Cricket-Score: the commentary poller of [main.py]

    A shallow embedding of the incremental-update pipeline of [main.py]
    (classification of commentary text, numeric coercion of the over
    number, the watermark/dedup filter of the poll loop, the notification
    gate, the fetch retry loop) together with the properties of the
    pipeline that the specification states.

    Conventions of the embedding.
    - Python [str] values are [string]s; a character stands for the Unicode
      code point of the same number, so the modelled alphabet is the code
      points below 256.
    - Python [float] values are IEEE binary64 numbers, [spec_float] with
      precision 53 and maximal exponent 1024.  The [int] [-1] that
      [over_to_float] and the initial watermark use is represented by the
      binary64 number [-1.0]: Python compares an [int] with a [float] by
      value, and [-1] is exactly representable.
    - The [set] of seen commentary ids is a [gset string].
    - What the parsed page offers (the score line, the commentary rows) and
      what the network answers are inputs of the model. *)

From Stdlib Require Import ZArith Ascii String List Bool Lia.
From Stdlib Require Import Floats.SpecFloat.
From stdpp Require Import gmap strings list sets sorting.

Open Scope string_scope.
Open Scope nat_scope.
Open Scope list_scope.

(** ** Python text operations *)

Module PyStr.

(** [str.lower] on one character: the ASCII capitals and the Latin-1
    capitals (U+00C0..U+00DE without the multiplication sign U+00D7) are
    moved 32 code points up. *)
Definition lower_char (c : ascii) : ascii :=
  let n := N_of_ascii c in
  if ((65 <=? n) && (n <=? 90) ||
      (192 <=? n) && (n <=? 222) && negb (n =? 215))%N
  then ascii_of_N (n + 32) else c.

(** [s.lower()] *)
Fixpoint lower (s : string) : string :=
  match s with
  | EmptyString => EmptyString
  | String c s' => String (lower_char c) (lower s')
  end.

(** [needle in hay]: [needle] occurs as a contiguous substring. *)
Fixpoint contains (needle hay : string) : bool :=
  String.prefix needle hay ||
  match hay with
  | EmptyString => false
  | String _ hay' => contains needle hay'
  end.

(** [s[:n]] *)
Definition take (n : nat) (s : string) : string := substring 0 n s.

End PyStr.

Notation "a 'in_str' b" := (PyStr.contains a b) (at level 45, no associativity).

(** ** Python floats *)

Module PyFloat.

Definition float64 : Type := spec_float.

Definition prec : Z := 53.
Definition emax : Z := 1024.

(** Comparisons of two floats as Python's [<], [>], [<=], [==]: all of
    them are false as soon as one side is a NaN. *)
Definition lt (x y : float64) : bool := SFltb x y.
Definition gt (x y : float64) : bool := SFltb y x.
Definition le (x y : float64) : bool := SFleb x y.
Definition eq (x y : float64) : bool := SFeqb x y.

Definition is_nan (x : float64) : bool :=
  match x with S754_nan => true | _ => false end.

(** The value [m * 10^e10] (negated when [neg]) rounded to the nearest
    binary64 number, ties to even. *)
Definition of_decimal (neg : bool) (m : Z) (e10 : Z) : float64 :=
  match m with
  | Zpos p =>
      if (0 <=? e10)%Z
      then binary_normalize prec emax (cond_Zopp neg (m * 10 ^ e10)) 0 false
      else SFdiv prec emax (S754_finite neg p 0)
                 (S754_finite false (Z.to_pos (10 ^ (- e10))) 0)
  | _ => S754_zero neg
  end.

(** *** [float(s)] for a string [s] *)

Definition is_space (c : ascii) : bool :=
  let n := N_of_ascii c in
  ((9 <=? n) && (n <=? 13) || (n =? 32) || (n =? 133) || (n =? 160))%N.

Definition is_digit (c : ascii) : bool :=
  let n := N_of_ascii c in ((48 <=? n) && (n <=? 57))%N.

Definition digit_val (c : ascii) : Z := Z.of_N (N_of_ascii c) - 48.

Definition is_char (c d : ascii) : bool := Ascii.eqb c d.

Fixpoint lstrip (l : list ascii) : list ascii :=
  match l with
  | c :: l' => if is_space c then lstrip l' else l
  | [] => []
  end.

(** Leading and trailing white space is dropped. *)
Definition strip (l : list ascii) : list ascii :=
  rev (lstrip (rev (lstrip l))).

(** An underscore is accepted only between two digits. *)
Fixpoint underscores_ok (prev : option ascii) (l : list ascii) : bool :=
  match l with
  | [] => true
  | c :: l' =>
      (if is_char c "_"
       then match prev, l' with
            | Some p, d :: _ => is_digit p && is_digit d
            | _, _ => false
            end
       else true)
      && underscores_ok (Some c) l'
  end.

Definition drop_underscores (l : list ascii) : list ascii :=
  List.filter (fun c => negb (is_char c "_")) l.

Definition parse_sign (l : list ascii) : bool * list ascii :=
  match l with
  | c :: l' =>
      if is_char c "-" then (true, l')
      else if is_char c "+" then (false, l')
      else (false, l)
  | [] => (false, [])
  end.

(** The longest prefix of digits, and the rest. *)
Fixpoint span_digits (l : list ascii) : list ascii * list ascii :=
  match l with
  | c :: l' =>
      if is_digit c
      then let '(ds, r) := span_digits l' in (c :: ds, r)
      else ([], l)
  | [] => ([], [])
  end.

Definition digits_to_Z (ds : list ascii) : Z :=
  fold_left (fun acc d => 10 * acc + digit_val d)%Z ds 0%Z.

(** The exponent part: nothing, or [e]/[E], an optional sign and at least
    one digit, up to the end of the text. *)
Definition parse_exponent (l : list ascii) : option Z :=
  match l with
  | [] => Some 0%Z
  | c :: l' =>
      if is_char c "e" || is_char c "E" then
        let '(neg, l'') := parse_sign l' in
        match span_digits l'' with
        | ((_ :: _) as ds, []) => Some (cond_Zopp neg (digits_to_Z ds))
        | _ => None
        end
      else None
  end.

(** A decimal numeral: digits with an optional point (at least one digit
    before or after it) and an optional exponent. *)
Definition parse_number (neg : bool) (l : list ascii) : option float64 :=
  let '(ip, r) := span_digits l in
  let '(fp, r') :=
    match r with
    | c :: r1 => if is_char c "." then span_digits r1 else ([], r)
    | [] => ([], [])
    end in
  match (ip ++ fp)%list with
  | [] => None
  | ds =>
      match parse_exponent r' with
      | Some e => Some (of_decimal neg (digits_to_Z ds)
                                   (e - Z.of_nat (List.length fp)))
      | None => None
      end
  end.

(** [inf], [infinity] and [nan], in any mix of cases. *)
Definition parse_inf_or_nan (neg : bool) (l : list ascii) : option float64 :=
  let w := string_of_list_ascii (map PyStr.lower_char l) in
  if String.eqb w "inf" || String.eqb w "infinity"
  then Some (S754_infinity neg)
  else if String.eqb w "nan" then Some S754_nan
  else None.

(** [float(s)]: [None] stands for the [ValueError] raised on a text that
    is not a float literal. *)
Definition float (s : string) : option float64 :=
  let l := strip (list_ascii_of_string s) in
  if underscores_ok None l then
    let '(neg, body) := parse_sign (drop_underscores l) in
    match parse_number neg body with
    | Some x => Some x
    | None => parse_inf_or_nan neg body
    end
  else None.

End PyFloat.

Abbreviation float64 := PyFloat.float64.

(** ** [extract_result]: the result classifier *)

Definition extract_result (commentary_text : string) : string :=
  let text := PyStr.lower commentary_text in
  if ("wicket" in_str text) || ("out" in_str text) then "wicket"
  else if "no run" in_str text then "dot"
  else if "1 run" in_str text then "1 run"
  else if "2 run" in_str text then "2 runs"
  else if "3 run" in_str text then "3 runs"
  else if ("four" in_str text) || ("4 runs" in_str text) then "4"
  else if ("six" in_str text) || ("6 runs" in_str text) then "6"
  else if "wide" in_str text then "wide"
  else if "no ball" in_str text then "no ball"
  else if "bye" in_str text then "bye"
  else if "leg bye" in_str text then "leg bye"
  else "event".

(** ** [over_to_float]: the numeric coercion of the over number *)

(** The sentinel [-1] returned on a parse error. *)
Definition minus_one : float64 :=
  Eval cbv in binary_normalize PyFloat.prec PyFloat.emax (-1) 0 false.

Definition over_to_float (over_num : string) : float64 :=
  match PyFloat.float over_num with
  | Some x => x
  | None => minus_one
  end.

(** ** The poll loop of [main] *)

(** An element of [new_commentaries]: the dictionary with the keys
    ["over"], ["commentary"], ["result"] and ["score"]. *)
Record entry := {
  over : string;
  commentary : string;
  result : string;
  score : string
}.

(** One [div.cb-col.cb-col-100] of the page.  An over division is
    represented by the stripped text of its over-number element, [None]
    when it has no such element; a commentary paragraph by its stripped
    text. *)
Record section := {
  over_divs : list (option string);
  commentary_divs : list string
}.

(** What one poll cycle reads from the fetched document. *)
Record page := {
  current_score : string;
  commentary_sections : list section
}.

(** The [discord] part of the configuration. *)
Record config := {
  discord_enabled : bool;
  discord_token : string;
  discord_channel_ids : list string
}.

(** The variables of [main] that live across cycles. *)
Record tracker := {
  seen_commentaries : gset string;
  highest_over_seen : float64;
  last_sent_over : option string
}.

(** The variables of one cycle: the tracker and the two cycle-local ones. *)
Record scan := {
  vars : tracker;
  new_commentaries : list entry;
  new_commentary_found : bool
}.

Definition initial : tracker :=
  {| seen_commentaries := ∅; highest_over_seen := minus_one; last_sent_over := None |}.

Definition begin_scan (st : tracker) : scan :=
  {| vars := st; new_commentaries := []; new_commentary_found := false |}.

(** [f"{over_num} - {commentary_text[:50]}"] *)
Definition commentary_id (over_num commentary_text : string) : string :=
  over_num +:+ " - " +:+ PyStr.take 50 commentary_text.

(** The body of the inner [for] loop (lines 171-194) on one zipped pair. *)
Definition process_row (current_score : string) (sc : scan)
    (row : option string * string) : scan :=
  match fst row with
  | None => sc
  | Some over_num =>
      let commentary_text := snd row in
      let st := vars sc in
      let id := commentary_id over_num commentary_text in
      if bool_decide (id ∈ seen_commentaries st) then sc
      else
        let result := extract_result commentary_text in
        if String.eqb result "event" || String.eqb over_num "N/A" then sc
        else
          let over_float := over_to_float over_num in
          let highest :=
            if PyFloat.gt over_float (highest_over_seen st)
            then over_float else highest_over_seen st in
          if PyFloat.lt over_float highest
          then {| vars := {| seen_commentaries := seen_commentaries st;
                             highest_over_seen := highest;
                             last_sent_over := last_sent_over st |};
                  new_commentaries := new_commentaries sc;
                  new_commentary_found := new_commentary_found sc |}
          else {| vars := {| seen_commentaries := {[ id ]} ∪ seen_commentaries st;
                             highest_over_seen := highest;
                             last_sent_over := last_sent_over st |};
                  new_commentaries :=
                    new_commentaries sc ++
                    [ {| over := over_num; commentary := commentary_text;
                         result := result; score := current_score |} ];
                  new_commentary_found := true |}
  end.

Definition nonempty {A} (l : list A) : bool :=
  match l with [] => false | _ :: _ => true end.

(** The body of the [for section] loop (lines 167-194). *)
Definition scan_section (current_score : string) (sc : scan) (s : section) : scan :=
  if nonempty (over_divs s) && nonempty (commentary_divs s)
  then fold_left (process_row current_score)
                 (combine (over_divs s) (commentary_divs s)) sc
  else sc.

(** Lines 163-194: the scan of the whole page. *)
Definition scan_page (p : page) (st : tracker) : scan :=
  fold_left (scan_section (current_score p)) (commentary_sections p) (begin_scan st).

(** [max(items, key=key)] on a non-empty list: the first item whose key
    no later key exceeds under [>]. *)
Definition py_max {A} (key : A → float64) (first : A) (rest : list A) : A :=
  fold_left (fun best x => if PyFloat.gt (key x) (key best) then x else best)
            rest first.

(** What the main thread does to the thread pool. *)
Inductive effect :=
| ExecutorSubmit (message token : string) (channel_ids : list string)
| ExecutorShutdown (wait : bool).

Definition discord_message (e : entry) : string :=
  "Over: " +:+ over e +:+ " | Result: " +:+ result e +:+ " | Score: " +:+ score e.

(** Lines 195-206: the notification gate.  The [with] statement around
    [executor.submit] leaves the pool through [shutdown(wait=True)]. *)
Definition notify (cfg : config) (sc : scan) : option string * list effect :=
  let last := last_sent_over (vars sc) in
  if new_commentary_found sc && nonempty (new_commentaries sc) then
    match new_commentaries sc with
    | [] => (last, [])
    | first :: rest =>
        let latest_commentary := py_max (fun x => over_to_float (over x)) first rest in
        let current_over := over latest_commentary in
        if bool_decide (last ≠ Some current_over) then
          (Some current_over,
           if discord_enabled cfg
           then [ ExecutorSubmit (discord_message latest_commentary)
                                 (discord_token cfg) (discord_channel_ids cfg);
                  ExecutorShutdown true ]
           else [])
        else (last, [])
    end
  else (last, []).

(** The order in which [list(seen_commentaries)] enumerates a set: some
    arrangement of its elements, not fixed by the language. *)
Record set_listing := {
  as_list : gset string → list string;
  as_list_perm : ∀ s, as_list s ≡ₚ elements s
}.

(** [l[-n:]] *)
Definition last_n {A} (n : nat) (l : list A) : list A :=
  drop (length l - n) l.

(** Lines 209-210: the cap on the seen set. *)
Definition evict (ls : set_listing) (seen : gset string) : gset string :=
  if bool_decide (1000 < size seen)
  then list_to_set (last_n 500 (as_list ls seen))
  else seen.

(** The inputs of one cycle: the parsed page ([None] when [fetch_page]
    gave no content) and the enumeration order of the seen set. *)
Record cycle_input := {
  html_content : option page;
  listing : set_listing
}.

(** What one cycle leaves behind. *)
Record cycle_result := {
  after : tracker;
  admitted : list entry;
  effects : list effect
}.

(** One iteration of the [while True] loop. *)
Definition run_cycle (cfg : config) (st : tracker) (inp : cycle_input) : cycle_result :=
  match html_content inp with
  | None => {| after := st; admitted := []; effects := [] |}
  | Some p =>
      let sc := scan_page p st in
      let '(last, eff) := notify cfg sc in
      {| after := {| seen_commentaries := evict (listing inp) (seen_commentaries (vars sc));
                     highest_over_seen := highest_over_seen (vars sc);
                     last_sent_over := last |};
         admitted := new_commentaries sc;
         effects := eff |}
  end.

(** The cycles of a run, in order. *)
Fixpoint run_from (cfg : config) (st : tracker) (inputs : list cycle_input)
    : list cycle_result :=
  match inputs with
  | [] => []
  | inp :: rest =>
      let r := run_cycle cfg st inp in
      r :: run_from cfg (after r) rest
  end.

(** The state a run ends in. *)
Definition final_state (cfg : config) (st : tracker) (inputs : list cycle_input) : tracker :=
  fold_left (fun st inp => after (run_cycle cfg st inp)) inputs st.

Definition run (cfg : config) (inputs : list cycle_input) : list cycle_result :=
  run_from cfg initial inputs.

Definition run_admitted (cfg : config) (inputs : list cycle_input) : list entry :=
  concat (map admitted (run cfg inputs)).

Definition run_effects (cfg : config) (inputs : list cycle_input) : list effect :=
  concat (map effects (run cfg inputs)).

(** The enumeration [elements] as a listing. *)
Definition sorted_listing : set_listing :=
  {| as_list := elements; as_list_perm := fun s => reflexivity (elements s) |}.

(** *** Views of a scan used to state its properties *)

(** The zipped pairs of a page in the order lines 166-170 visit them. *)
Definition page_rows (p : page) : list (option string * string) :=
  flat_map (fun s =>
              if nonempty (over_divs s) && nonempty (commentary_divs s)
              then combine (over_divs s) (commentary_divs s) else [])
           (commentary_sections p).

(** The parsed position of an admitted event. *)
Definition position (e : entry) : float64 := over_to_float (over e).

(** The conditions under which lines 177-186 let a row through: its id is
    new, its result is not ["event"], its over text is not ["N/A"], and its
    position is not below the watermark. *)
Definition admissible (st : tracker) (over_num commentary_text : string) : bool :=
  negb (bool_decide (commentary_id over_num commentary_text ∈ seen_commentaries st))
  && negb (String.eqb (extract_result commentary_text) "event"
           || String.eqb over_num "N/A")
  && negb (PyFloat.lt (over_to_float over_num) (highest_over_seen st)).

(** The scan after lines 187-194 have admitted a row. *)
Definition admit_row (current_score : string) (sc : scan)
    (over_num commentary_text : string) : scan :=
  let st := vars sc in
  let over_float := over_to_float over_num in
  {| vars := {| seen_commentaries :=
                  {[ commentary_id over_num commentary_text ]} ∪ seen_commentaries st;
                highest_over_seen :=
                  if PyFloat.gt over_float (highest_over_seen st)
                  then over_float else highest_over_seen st;
                last_sent_over := last_sent_over st |};
     new_commentaries :=
       new_commentaries sc ++
       [ {| over := over_num; commentary := commentary_text;
            result := extract_result commentary_text; score := current_score |} ];
     new_commentary_found := true |}.

(** [y] is not lower than [x]: [y < x] is false, and [x <= y] holds when
    both are numbers. *)
Definition not_lower (x y : float64) : Prop :=
  PyFloat.lt y x = false
  ∧ (PyFloat.is_nan x = false → PyFloat.is_nan y = false → PyFloat.le x y = true).

(** The watermark is a number. *)
Definition numeric (st : tracker) : Prop :=
  PyFloat.is_nan (highest_over_seen st) = false.

(** [x <= y] as a relation. *)
Definition wm_le (x y : float64) : Prop := PyFloat.le x y = true.

(** The order of admission: a later event is not lower than an earlier one. *)
Definition admission_order (a b : entry) : Prop :=
  not_lower (position a) (position b).

(** An admitted event is covered by the watermark [h]: its position is not
    a number, or it is at most [h]. *)
Definition covered (h : float64) (e : entry) : Prop :=
  PyFloat.is_nan (position e) = true ∨ PyFloat.le (position e) h = true.

(** What the events admitted so far and the watermark have in common. *)
Definition history_ok (h : float64) (events : list entry) : Prop :=
  PyFloat.is_nan h = false
  ∧ Forall (covered h) events
  ∧ StronglySorted admission_order events.

(** Two configurations. *)
Definition discord_on : config :=
  {| discord_enabled := true; discord_token := "token";
     discord_channel_ids := ["channel"] |}.

Definition discord_off : config :=
  {| discord_enabled := false; discord_token := ""; discord_channel_ids := [] |}.

(** A tracker has moved on from another: it has seen at least the same
    ids, and what was below the watermark still is. *)
Definition advance (st st' : tracker) : Prop :=
  seen_commentaries st ⊆ seen_commentaries st'
  ∧ ∀ x, PyFloat.lt x (highest_over_seen st) = true →
         PyFloat.lt x (highest_over_seen st') = true.

(** The cycle reaches the cap of lines 209-210 with more than 1000 ids, so
    that the seen set is cut down. *)
Definition evicts (st : tracker) (inp : cycle_input) : Prop :=
  match html_content inp with
  | None => False
  | Some p => 1000 < size (seen_commentaries (vars (scan_page p st)))
  end.

(** The events of the new-events list that a notification may be about:
    none has a strictly greater position. *)
Definition maximal_in (events : list entry) (e : entry) : Prop :=
  e ∈ events ∧ ∀ e', e' ∈ events → PyFloat.gt (position e') (position e) = false.

(** The two pool operations of a dispatched notification. *)
Definition dispatch (cfg : config) (e : entry) : list effect :=
  [ ExecutorSubmit (discord_message e) (discord_token cfg) (discord_channel_ids cfg);
    ExecutorShutdown true ].

(** The value of [highest_over_seen] after each processed row. *)
Fixpoint row_watermarks (current_score : string) (sc : scan)
    (rows : list (option string * string)) : list float64 :=
  match rows with
  | [] => []
  | r :: rows' =>
      let sc' := process_row current_score sc r in
      highest_over_seen (vars sc') :: row_watermarks current_score sc' rows'
  end.

Definition cycle_watermarks (st : tracker) (inp : cycle_input) : list float64 :=
  match html_content inp with
  | None => []
  | Some p => row_watermarks (current_score p) (begin_scan st) (page_rows p)
  end.

Fixpoint watermarks_from (cfg : config) (st : tracker) (inputs : list cycle_input)
    : list float64 :=
  match inputs with
  | [] => []
  | inp :: rest =>
      cycle_watermarks st inp ++ watermarks_from cfg (after (run_cycle cfg st inp)) rest
  end.

(** The watermark of a run: its initial value, then its value after every
    processed row of every cycle. *)
Definition run_watermarks (cfg : config) (inputs : list cycle_input) : list float64 :=
  highest_over_seen initial :: watermarks_from cfg initial inputs.

(** The messages handed to the thread pool. *)
Definition submitted (effs : list effect) : list string :=
  omap (fun e => match e with
                 | ExecutorSubmit m _ _ => Some m
                 | ExecutorShutdown _ => None
                 end) effs.

(** [last_sent_over] agrees with the messages handed to the pool so far:
    it is [None] when there is none, and the over text of an admitted
    event whose message was the last one otherwise. *)
Definition tracks (st : tracker) (effs : list effect) (events : list entry) : Prop :=
  match last (submitted effs) with
  | None => last_sent_over st = None
  | Some m =>
      ∃ e, e ∈ events ∧ m = discord_message e ∧ last_sent_over st = Some (over e)
  end.

(** An admitted event carries the result of its text, which is not
    ["event"], and an over text other than ["N/A"]. *)
Definition notable (e : entry) : Prop :=
  result e = extract_result (commentary e)
  ∧ result e ≠ "event"
  ∧ over e ≠ "N/A".

(** Every seen id is the id of one of the events. *)
Definition backed (st : tracker) (events : list entry) : Prop :=
  ∀ k, k ∈ seen_commentaries st →
       ∃ e, e ∈ events ∧ k = commentary_id (over e) (commentary e).

(** A page with one section made of the given rows, and the cycle that
    fetches it. *)
Definition page_of (current_score : string) (rows : list (string * string)) : page :=
  {| current_score := current_score;
     commentary_sections :=
       [ {| over_divs := map (fun r => Some (fst r)) rows;
            commentary_divs := map snd rows |} ] |}.

Definition cycle_of (current_score : string) (rows : list (string * string)) : cycle_input :=
  {| html_content := Some (page_of current_score rows); listing := sorted_listing |}.

(** ** The classifier as the specification words it

    An ordered table of rules, each a list of substrings and the result
    they stand for; the first rule with a substring that occurs in the
    lower-cased text wins, and ["event"] is the result when none does. *)

Definition classification_rules : list (list string * string) :=
  [ (["wicket"; "out"], "wicket");
    (["no run"], "dot");
    (["1 run"], "1 run");
    (["2 run"], "2 runs");
    (["3 run"], "3 runs");
    (["four"; "4 runs"], "4");
    (["six"; "6 runs"], "6");
    (["wide"], "wide");
    (["no ball"], "no ball");
    (["bye"], "bye");
    (["leg bye"], "leg bye") ].

Definition classify_by_rules (commentary_text : string) : string :=
  let text := PyStr.lower commentary_text in
  match List.find (fun rule => existsb (fun s => s in_str text) (fst rule))
                  classification_rules with
  | Some rule => snd rule
  | None => "event"
  end.

(** ** [fetch_page]: the retry loop

    [net attempt] is what the request of the given attempt (counted from 0)
    yields: the response text, or [None] for a [RequestException].  The
    loop is run on the list [range(max_retries)]; its trace records the
    requests made and the sleeps between them. *)

Inductive io :=
| Get (attempt : nat)
| Sleep (seconds : Z).

Fixpoint fetch_attempts (net : nat → option string) (max_retries : nat)
    (attempts : list nat) (retry_delay : Z) : option string * list io :=
  match attempts with
  | [] => (None, [])
  | attempt :: rest =>
      match net attempt with
      | Some text => (Some text, [Get attempt])
      | None =>
          if (attempt <? max_retries - 1)%nat
          then
            let '(r, tr) := fetch_attempts net max_retries rest (retry_delay * 2) in
            (r, Get attempt :: Sleep retry_delay :: tr)
          else (None, [Get attempt])
      end
  end.

Definition fetch_page (net : nat → option string) : option string * list io :=
  let max_retries := 3 in
  let retry_delay := 2%Z in
  fetch_attempts net max_retries (seq 0 max_retries) retry_delay.

Definition requests_made (tr : list io) : list nat :=
  omap (fun a => match a with Get k => Some k | Sleep _ => None end) tr.

Definition sleeps (tr : list io) : list Z :=
  omap (fun a => match a with Sleep d => Some d | Get _ => None end) tr.

(** ** [send_to_discord]

    The [channel_ids] argument is a string or a list of strings.  The
    outcome of a request is what [requests.post] gives: a response with
    its status code and text, or an exception.  [http k p] is the outcome
    of the request [p] when it is the [k]-th one of the call.  The result
    is the value returned and the requests made, in order; the log lines
    are left out. *)

Inductive channel_ids_arg :=
| ChannelStr (channel_id : string)
| ChannelList (channel_ids : list string).

Inductive post_outcome :=
| Responded (status_code : Z) (text : string)
| PostRaised.

(** One [requests.post(url, headers=headers, json=payload)]. *)
Record post_request := {
  url : string;
  authorization : string;
  content_type : string;
  content : string
}.

(** [not channel_ids] *)
Definition no_channels (c : channel_ids_arg) : bool :=
  match c with
  | ChannelStr s => String.eqb s ""
  | ChannelList l => negb (nonempty l)
  end.

(** Lines 27-28. *)
Definition channel_list (c : channel_ids_arg) : list string :=
  match c with
  | ChannelStr s => [s]
  | ChannelList l => l
  end.

Definition discord_post (message token channel_id : string) : post_request :=
  {| url := "https://discord.com/api/v10/channels/" +:+ channel_id +:+ "/messages";
     authorization := token;
     content_type := "application/json";
     content := message |}.

(** [response.status_code in [200, 201]] *)
Definition delivered (o : post_outcome) : bool :=
  match o with
  | Responded status_code _ => (status_code =? 200)%Z || (status_code =? 201)%Z
  | PostRaised => false
  end.

(** The [for channel_id in channel_ids] loop (lines 37-51), entered at its
    [k]-th request with the current value of [success]. *)
Fixpoint post_each (http : nat → post_request → post_outcome) (k : nat)
    (message token : string) (ids : list string) (success : bool)
    : bool * list post_request :=
  match ids with
  | [] => (success, [])
  | channel_id :: rest =>
      let p := discord_post message token channel_id in
      let success' := if delivered (http k p) then true else success in
      let '(r, tr) := post_each http (S k) message token rest success' in
      (r, p :: tr)
  end.

Definition send_to_discord (http : nat → post_request → post_outcome)
    (message token : string) (channel_ids : channel_ids_arg)
    : bool * list post_request :=
  if String.eqb token "" || no_channels channel_ids then (false, [])
  else post_each http 0 message token (channel_list channel_ids) false.

(** *** Views used to state further properties of a cycle *)

(** The id under which an admitted event is remembered. *)
Definition entry_id (e : entry) : string :=
  commentary_id (over e) (commentary e).

(** What a scan that started from the seen set [seen0] has admitted so far:
    events of the page with the score of the page and the result of their
    text, under pairwise distinct ids that are new to [seen0] and make up
    the growth of the seen set; and the flag says whether there are any. *)
Definition scan_ok (p : page) (seen0 : gset string) (sc : scan) : Prop :=
  Forall (fun e => (Some (over e), commentary e) ∈ page_rows p
                   ∧ score e = current_score p
                   ∧ result e = extract_result (commentary e))
         (new_commentaries sc)
  ∧ NoDup (map entry_id (new_commentaries sc))
  ∧ (∀ e, e ∈ new_commentaries sc → entry_id e ∉ seen0)
  ∧ seen_commentaries (vars sc)
    = seen0 ∪ list_to_set (map entry_id (new_commentaries sc))
  ∧ new_commentary_found sc = nonempty (new_commentaries sc).

(** A tracker that has seen the 1001 two-character ids numbered 0 to 1000. *)
Definition numbered_id (n : nat) : string :=
  String (ascii_of_nat (n / 256)) (String (ascii_of_nat (n mod 256)) EmptyString).

Definition crowded : tracker :=
  {| seen_commentaries := list_to_set (map numbered_id (seq 0 1001));
     highest_over_seen := minus_one;
     last_sent_over := None |}.

(** The watermark [h] is the value [h0] it started with or the position of
    one of the events. *)
Definition reached (h0 h : float64) (events : list entry) : Prop :=
  h = h0 ∨ ∃ e, e ∈ events ∧ h = position e.

(** The results [extract_result] can give. *)
Definition results : list string :=
  ["wicket"; "dot"; "1 run"; "2 runs"; "3 runs"; "4"; "6"; "wide"; "no ball";
   "bye"; "event"].

(** The text begins, after leading white space, with a minus sign. *)
Definition has_minus_sign (s : string) : bool :=
  match PyFloat.strip (list_ascii_of_string s) with
  | c :: _ => PyFloat.is_char c "-"
  | [] => false
  end.

(** The float is a zero, a finite number or an infinity with the sign
    [neg]. *)
Definition signed (neg : bool) (x : float64) : Prop :=
  match x with
  | S754_zero s | S754_infinity s | S754_finite s _ _ => s = neg
  | S754_nan => False
  end.

(** ** The score line (lines 137-162)

    The pattern [NZ\s+\d+/\d+\s+\(\d+\.?\d*\)] is matched by a hand-written
    matcher: every repetition of the pattern is followed by a character
    outside its class, so the greedy match is the only one.  What the
    parsed document offers to the second, third and fourth stage is input:
    the stripped texts of the selected headings, for every
    [div.cb-min-bat-rw] the stripped text of its first [h2] if it has one,
    and the text of the whole document. *)

Module Score.

(** [str.isspace] on one character, which is also the class [\s]. *)
Definition is_space (c : ascii) : bool :=
  let n := N_of_ascii c in
  ((9 <=? n) && (n <=? 13) || (28 <=? n) && (n <=? 32) || (n =? 133) || (n =? 160))%N.

(** The longest prefix of characters of a class, and the rest. *)
Fixpoint span (f : ascii → bool) (s : string) : string * string :=
  match s with
  | String c s' =>
      if f c then let '(m, r) := span f s' in (String c m, r) else (EmptyString, s)
  | EmptyString => (EmptyString, EmptyString)
  end.

(** [x+] for a class [x]. *)
Definition some_of (f : ascii → bool) (s : string) : option (string * string) :=
  match span f s with
  | (EmptyString, _) => None
  | (m, r) => Some (m, r)
  end.

(** [x*] for a class [x]. *)
Definition any_of (f : ascii → bool) (s : string) : option (string * string) :=
  Some (span f s).

(** One given character. *)
Definition char (c : ascii) (s : string) : option (string * string) :=
  match s with
  | String d r => if Ascii.eqb c d then Some (String c EmptyString, r) else None
  | EmptyString => None
  end.

(** [c?] for a character [c]. *)
Definition maybe_char (c : ascii) (s : string) : option (string * string) :=
  match char c s with
  | Some mr => Some mr
  | None => Some (EmptyString, s)
  end.

(** One part of the pattern after another; the texts matched are joined. *)
Definition then_ (p q : string → option (string * string)) (s : string)
    : option (string * string) :=
  match p s with
  | Some (m1, r1) =>
      match q r1 with
      | Some (m2, r2) => Some (m1 +:+ m2, r2)
      | None => None
      end
  | None => None
  end.

Definition score_pattern : string → option (string * string) :=
  then_ (char "N") (then_ (char "Z") (then_ (some_of is_space)
  (then_ (some_of PyFloat.is_digit) (then_ (char "/")
  (then_ (some_of PyFloat.is_digit) (then_ (some_of is_space)
  (then_ (char "(") (then_ (some_of PyFloat.is_digit)
  (then_ (maybe_char ".") (then_ (any_of PyFloat.is_digit) (char ")"))))))))))).

(** [re.findall(score_pattern, s)[0]], when there is a match: the match at
    the first position that has one. *)
Fixpoint first_match (s : string) : option string :=
  match score_pattern s with
  | Some (m, _) => Some m
  | None =>
      match s with
      | String _ s' => first_match s'
      | EmptyString => None
      end
  end.

Fixpoint lstrip (l : list ascii) : list ascii :=
  match l with
  | c :: l' => if is_space c then lstrip l' else l
  | [] => []
  end.

(** [s.strip()] *)
Definition strip (s : string) : string :=
  string_of_list_ascii (rev (lstrip (rev (lstrip (list_ascii_of_string s))))).

Definition not_found : string := "Score not found".

Record sources := {
  html_text : string;
  score_elements : list string;
  min_bat_divs : list (option string);
  all_text : string
}.

(** Lines 140-141 and 161-162. *)
Definition by_pattern (text current_score : string) : string :=
  match first_match text with
  | Some m => strip m
  | None => current_score
  end.

(** Lines 143-148. *)
Definition by_heading (texts : list string) (current_score : string) : string :=
  match List.find (fun text => ("NZ" in_str text) && ("/" in_str text)
                               && ("(" in_str text)) texts with
  | Some text => text
  | None => current_score
  end.

(** Lines 150-157. *)
Definition by_min_bat (h2_texts : list (option string)) (current_score : string)
    : string :=
  match List.find (fun h2 => match h2 with
                             | Some text => "NZ" in_str text
                             | None => false
                             end) h2_texts with
  | Some (Some text) => text
  | _ => current_score
  end.

(** Lines 137-162: the four stages of the cascade. *)
Definition extract_score (src : sources) : string :=
  let current_score := not_found in
  let current_score := by_pattern (html_text src) current_score in
  let current_score :=
    if String.eqb current_score not_found
    then by_heading (score_elements src) current_score else current_score in
  let current_score :=
    if String.eqb current_score not_found
    then by_min_bat (min_bat_divs src) current_score else current_score in
  if String.eqb current_score not_found
  then by_pattern (all_text src) current_score else current_score.

(** A part of the pattern splits the text into what it matched and the
    rest. *)
Definition splits (p : string → option (string * string)) : Prop :=
  ∀ s m r, p s = Some (m, r) → s = m +:+ r.

(** A part of the pattern whose matches end with the closing bracket. *)
Definition closes (p : string → option (string * string)) : Prop :=
  ∀ s m r, p s = Some (m, r) → ∃ mid, m = mid +:+ ")".

End Score.

(** ** One poll (lines 131-136 with the cycle that follows)

    [parse] stands for what lines 136-163 read from the fetched text: the
    score line and the commentary sections.  A fetch that gave nothing, or
    an empty text, is followed by a sleep of 5 and the next iteration. *)

Definition fetched_page (parse : string → page) (net : nat → option string)
    : option page :=
  match fst (fetch_page net) with
  | Some html_content =>
      if String.eqb html_content "" then None else Some (parse html_content)
  | None => None
  end.

Definition poll (cfg : config) (parse : string → page) (ls : set_listing)
    (st : tracker) (net : nat → option string) : cycle_result * list io :=
  (run_cycle cfg st {| html_content := fetched_page parse net; listing := ls |},
   snd (fetch_page net)
   ++ match fetched_page parse net with
      | None => [Sleep 5]
      | Some _ => []
      end).

(** * The order of binary64 numbers

    [SFcompare] orders the numbers that are not NaN lexicographically by
    sign class, exponent and mantissa; the facts about [<] and [<=] that the
    watermark argument needs follow from the order of [Z]. *)

Module FloatOrder.

Definition rank (x : float64) : option (Z * Z * Z) :=
  match x with
  | S754_nan => None
  | S754_infinity true => Some (-2, 0, 0)%Z
  | S754_finite true m e => Some (-1, - e, Zneg m)%Z
  | S754_zero _ => Some (0, 0, 0)%Z
  | S754_finite false m e => Some (1, e, Zpos m)%Z
  | S754_infinity false => Some (2, 0, 0)%Z
  end.

Definition lex3 (a b : Z * Z * Z) : comparison :=
  let '(a1, a2, a3) := a in
  let '(b1, b2, b3) := b in
  match (a1 ?= b1)%Z with
  | Eq => match (a2 ?= b2)%Z with Eq => (a3 ?= b3)%Z | c => c end
  | c => c
  end.

Definition lex_lt (a b : Z * Z * Z) : Prop :=
  let '(a1, a2, a3) := a in
  let '(b1, b2, b3) := b in
  (a1 < b1 ∨ a1 = b1 ∧ (a2 < b2 ∨ a2 = b2 ∧ a3 < b3))%Z.

Lemma lex3_spec a b :
  match lex3 a b with
  | Lt => lex_lt a b
  | Eq => a = b
  | Gt => lex_lt b a
  end.
Proof.
  destruct a as [[a1 a2] a3], b as [[b1 b2] b3]; simpl.
  destruct (Z.compare_spec a1 b1); [|lia..].
  destruct (Z.compare_spec a2 b2); [|lia..].
  destruct (Z.compare_spec a3 b3); [congruence|lia..].
Qed.

Lemma SFcompare_rank (x y : float64) :
  SFcompare x y =
  match rank x, rank y with
  | Some a, Some b => Some (lex3 a b)
  | _, _ => None
  end.
Proof.
  destruct x as [[]|[]| |[] m1 e1], y as [[]|[]| |[] m2 e2]; try reflexivity;
    cbn -[Z.compare Z.opp]; f_equal.
  rewrite Z.compare_opp, (Z.compare_antisym e1 e2).
  destruct (e1 ?= e2)%Z; reflexivity.
Qed.

Lemma rank_nan x : rank x = None ↔ PyFloat.is_nan x = true.
Proof. destruct x as [[]|[]| |[] m e]; simpl; split; congruence. Qed.

(** Unfold the comparisons of the goal and of the hypotheses to facts
    about ranks. *)
Ltac to_ranks :=
  unfold PyFloat.gt, PyFloat.lt, PyFloat.le, PyFloat.eq, SFltb, SFleb, SFeqb in *;
  rewrite ?SFcompare_rank in *;
  repeat match goal with
         | H : PyFloat.is_nan _ = true |- _ => apply rank_nan in H
         | H : PyFloat.is_nan ?x = false |- _ =>
             let E := fresh in
             assert (E : rank x ≠ None)
               by (rewrite rank_nan; congruence);
             clear H
         end;
  repeat match goal with
         | |- context [rank ?x] => destruct (rank x) as [[[? ?] ?]|]
         | H : context [rank ?x] |- _ => destruct (rank x) as [[[? ?] ?]|]
         end;
  try congruence;
  repeat match goal with
         | |- context [lex3 ?a ?b] =>
             let H := fresh in
             pose proof (lex3_spec a b) as H; destruct (lex3 a b)
         | H0 : context [lex3 ?a ?b] |- _ =>
             let H := fresh in
             pose proof (lex3_spec a b) as H; destruct (lex3 a b)
         end;
  unfold lex_lt in *;
  repeat match goal with
         | H : (_, _, _) = (_, _, _) |- _ => inversion H; clear H; subst
         end;
  try congruence; try lia.

Lemma lt_irrefl x : PyFloat.lt x x = false.
Proof. to_ranks. Qed.

Lemma lt_asym x y : PyFloat.lt x y = true → PyFloat.lt y x = false.
Proof. intros. to_ranks. Qed.

Lemma lt_le x y : PyFloat.lt x y = true → PyFloat.le x y = true.
Proof. intros. to_ranks. Qed.

Lemma le_trans x y z :
  PyFloat.le x y = true → PyFloat.le y z = true → PyFloat.le x z = true.
Proof. intros. to_ranks. Qed.

Lemma lt_le_trans x y z :
  PyFloat.lt x y = true → PyFloat.le y z = true → PyFloat.lt x z = true.
Proof. intros. to_ranks. Qed.

Lemma le_lt_trans x y z :
  PyFloat.le x y = true → PyFloat.lt y z = true → PyFloat.lt x z = true.
Proof. intros. to_ranks. Qed.

Lemma le_refl x : PyFloat.is_nan x = false → PyFloat.le x x = true.
Proof. intros. to_ranks. Qed.

Lemma le_not_nan_l x y : PyFloat.le x y = true → PyFloat.is_nan x = false.
Proof.
  intros H. destruct (PyFloat.is_nan x) eqn:E; [|reflexivity]. to_ranks.
Qed.

Lemma le_not_nan_r x y : PyFloat.le x y = true → PyFloat.is_nan y = false.
Proof.
  intros H. destruct (PyFloat.is_nan y) eqn:E; [|reflexivity]. to_ranks.
Qed.

Lemma lt_nan_l x y : PyFloat.is_nan x = true → PyFloat.lt x y = false.
Proof. intros. to_ranks. Qed.

Lemma lt_nan_r x y : PyFloat.is_nan y = true → PyFloat.lt x y = false.
Proof. intros. to_ranks. Qed.

(** On numbers, [<] and [>=] are complementary. *)
Lemma not_lt_le x y :
  PyFloat.is_nan x = false → PyFloat.is_nan y = false →
  PyFloat.lt x y = false → PyFloat.le y x = true.
Proof. intros. to_ranks. Qed.

Lemma le_not_lt x y : PyFloat.le x y = true → PyFloat.lt y x = false.
Proof. intros. to_ranks. Qed.

End FloatOrder.

(** * The classifier *)

Section Classifier.

(** A needle that occurs keeps occurring when its first character is
    dropped from it. *)
Lemma contains_tail c needle hay :
  (String c needle) in_str hay = true → needle in_str hay = true.
Proof.
  induction hay as [|d hay IH]; cbn -[String.prefix].
  - discriminate.
  - intros H. apply orb_true_iff in H as [H|H].
    + cbn in H. destruct (ascii_dec c d) as [_|_]; [|discriminate].
      apply orb_true_iff; right.
      destruct hay; cbn -[String.prefix]; rewrite H; reflexivity.
    + apply orb_true_iff; right. auto.
Qed.

Lemma leg_bye_is_bye text : "leg bye" in_str text = true → "bye" in_str text = true.
Proof. intros H. do 4 apply contains_tail in H. exact H. Qed.

Lemma extract_result_rules commentary_text :
  extract_result commentary_text = classify_by_rules commentary_text.
Proof.
  unfold extract_result, classify_by_rules; cbn -[PyStr.contains].
  generalize (PyStr.lower commentary_text) as text; intros text.
  repeat match goal with
         | |- context [?s in_str text] =>
             destruct (s in_str text); cbn -[PyStr.contains]; try reflexivity
         end.
Qed.

Lemma extract_result_not_leg_bye commentary_text :
  extract_result commentary_text ≠ "leg bye".
Proof.
  unfold extract_result.
  generalize (PyStr.lower commentary_text) as text; intros text.
  destruct ("leg bye" in_str text) eqn:Hleg.
  - rewrite (leg_bye_is_bye _ Hleg).
    repeat match goal with
           | |- context [if ?b then _ else _] => destruct b; try discriminate
           end.
  - repeat match goal with
           | |- context [if ?b then _ else _] => destruct b; try discriminate
           end.
Qed.

End Classifier.

(** C4.  [extract_result] lower-cases its input and applies the rules
    wicket/out, no run, 1 run, 2 run, 3 run, four/4 runs, six/6 runs, wide,
    no ball, bye, leg bye in this order, the first match winning and
    ["event"] being the result when none matches; on the five sample texts
    it yields wicket, four, one, dot and bye; and no input at all is
    classified as leg bye. *)
Theorem classification_priority :
  (∀ commentary_text,
      extract_result commentary_text = classify_by_rules commentary_text)
  ∧ extract_result "OUT! clean bowled" = "wicket"
  ∧ extract_result "FOUR! cracking shot" = "4"
  ∧ extract_result "1 run taken" = "1 run"
  ∧ extract_result "just a dot ball, no run" = "dot"
  ∧ extract_result "leg bye taken" = "bye"
  ∧ (∀ commentary_text, extract_result commentary_text ≠ "leg bye").
Proof.
  split; [exact extract_result_rules|].
  repeat (split; [vm_compute; reflexivity|]).
  exact extract_result_not_leg_bye.
Qed.

(** * The page fetcher *)

(** C8.  Whatever the network answers, [fetch_page] returns a value.  Its
    trace is a request, or two requests with a sleep of 2 between them, or
    three requests with sleeps of 2 and then 4 between them: at most three
    attempts, a longer sleep after each failure, and no sleep after the
    last attempt.  The first attempt that succeeds ends the loop and its
    content is the result; when all three attempts fail the result is
    [None]. *)
Theorem fetch_retry_backoff (net : nat → option string) :
  let r := fst (fetch_page net) in
  let tr := snd (fetch_page net) in
  (tr = [Get 0]
   ∨ tr = [Get 0; Sleep 2; Get 1]
   ∨ tr = [Get 0; Sleep 2; Get 1; Sleep 4; Get 2])
  ∧ (length (requests_made tr) ≤ 3)%nat
  ∧ sleeps tr = take (length (requests_made tr) - 1) [2; 4]%Z
  ∧ (∀ k text,
        k < 3 → net k = Some text → (∀ j, j < k → net j = None) →
        r = Some text ∧ requests_made tr = seq 0 (S k))
  ∧ (∀ text, r = Some text →
        ∃ k, k < 3 ∧ net k = Some text ∧ last (requests_made tr) = Some k)
  ∧ (net 0 = None → net 1 = None → net 2 = None →
        r = None ∧ tr = [Get 0; Sleep 2; Get 1; Sleep 4; Get 2]).
Proof.
  unfold fetch_page; cbn.
  destruct (net 0) as [t0|] eqn:E0; cbn;
    [|destruct (net 1) as [t1|] eqn:E1; cbn;
      [|destruct (net 2) as [t2|] eqn:E2; cbn]].
  all: repeat match goal with |- _ ∧ _ => split end; auto.
  all: try (intros k text Hk Hnet Hfail;
            destruct k as [|[|[|k]]];
            first [ lia
                  | split; [congruence|reflexivity]
                  | pose proof (Hfail 0 ltac:(lia)); congruence
                  | pose proof (Hfail 1 ltac:(lia)); congruence
                  | congruence ]).
  all: try (intros text [= <-]; eexists; repeat split; eauto; lia).
  all: intros; congruence.
Qed.

(** Two failures and then a success: the third content is returned after
    sleeps of 2 and 4. *)
Lemma fetch_retry_backoff_witness :
  fst (fetch_page (fun k => if bool_decide (k < 2) then None else Some "<html>"))
    = Some "<html>"
  ∧ requests_made
      (snd (fetch_page (fun k => if bool_decide (k < 2) then None else Some "<html>")))
    = [0; 1; 2].
Proof.
  apply (proj1 (proj2 (proj2 (proj2
           (fetch_retry_backoff
              (fun k => if bool_decide (k < 2) then None else Some "<html>")))))
         2 "<html>").
  - lia.
  - reflexivity.
  - intros j Hj. destruct j as [|[|j]]; [reflexivity..|lia].
Defined.

(** * The scan of a page *)

Section Scan.

Implicit Types (sc : scan) (st : tracker) (row : option string * string).

(** A row is admitted when it is admissible, and leaves every variable as
    it was otherwise. *)
Lemma process_row_eq current_score sc over_num commentary_text :
  process_row current_score sc (Some over_num, commentary_text) =
  if admissible (vars sc) over_num commentary_text
  then admit_row current_score sc over_num commentary_text
  else sc.
Proof.
  destruct sc as [[seen h last] new found].
  unfold process_row, admissible, admit_row; cbn [fst snd vars seen_commentaries
    highest_over_seen last_sent_over new_commentaries new_commentary_found].
  destruct (bool_decide _); [reflexivity|].
  destruct (_ || _); [reflexivity|]. cbn [negb andb].
  destruct (PyFloat.gt _ h) eqn:Hgt.
  - rewrite FloatOrder.lt_irrefl.
    rewrite (FloatOrder.lt_asym _ _ Hgt). reflexivity.
  - destruct (PyFloat.lt _ h); reflexivity.
Qed.

Lemma process_row_no_over current_score sc commentary_text :
  process_row current_score sc (None, commentary_text) = sc.
Proof. reflexivity. Qed.

(** The nested loops visit the rows of [page_rows] in order. *)
Lemma scan_page_rows p st :
  scan_page p st =
  fold_left (process_row (current_score p)) (page_rows p) (begin_scan st).
Proof.
  unfold scan_page, page_rows.
  generalize (begin_scan st) as sc.
  induction (commentary_sections p) as [|s ss IH]; intros sc; [reflexivity|].
  cbn [fold_left flat_map]. rewrite fold_left_app, IH. f_equal.
  unfold scan_section. destruct (_ && _); reflexivity.
Qed.

End Scan.

(** * The watermark *)

Section Watermark.

Implicit Types (sc : scan) (st : tracker) (row : option string * string).

Lemma initial_numeric : numeric initial.
Proof. reflexivity. Qed.

Lemma gt_is_number x h : PyFloat.gt x h = true → PyFloat.is_nan x = false.
Proof.
  intros H. apply (FloatOrder.le_not_nan_r h), FloatOrder.lt_le, H.
Qed.

Lemma process_row_numeric current_score sc row :
  numeric (vars sc) → numeric (vars (process_row current_score sc row)).
Proof.
  destruct row as [[over_num|] text]; [|auto].
  rewrite process_row_eq. destruct (admissible _ _ _); [|auto].
  unfold numeric, admit_row; cbn. intros Hh.
  destruct (PyFloat.gt _ _) eqn:Hgt; [eapply gt_is_number, Hgt|exact Hh].
Qed.

Lemma process_row_watermark_le current_score sc row :
  numeric (vars sc) →
  PyFloat.le (highest_over_seen (vars sc))
             (highest_over_seen (vars (process_row current_score sc row))) = true.
Proof.
  intros Hh. destruct row as [[over_num|] text];
    [|apply FloatOrder.le_refl, Hh].
  rewrite process_row_eq. destruct (admissible _ _ _);
    [|apply FloatOrder.le_refl, Hh].
  unfold admit_row; cbn.
  destruct (PyFloat.gt _ _) eqn:Hgt;
    [apply FloatOrder.lt_le, Hgt|apply FloatOrder.le_refl, Hh].
Qed.

Lemma scan_numeric current_score rows sc :
  numeric (vars sc) →
  numeric (vars (fold_left (process_row current_score) rows sc)).
Proof.
  revert sc. induction rows as [|r rows IH]; intros sc Hh; [exact Hh|].
  cbn. apply IH, process_row_numeric, Hh.
Qed.

Lemma Forall_wm_le_trans x y l :
  wm_le x y → Forall (wm_le y) l → Forall (wm_le x) l.
Proof.
  intros Hxy Hall. eapply Forall_impl; [exact Hall|].
  intros z Hyz. eapply FloatOrder.le_trans; eassumption.
Qed.

(** Within a scan the watermark only grows, and what follows the scan
    can be appended when it starts from the watermark the scan ends with. *)
Lemma row_watermarks_sorted current_score rows sc tail :
  numeric (vars sc) →
  StronglySorted wm_le
    (highest_over_seen (vars (fold_left (process_row current_score) rows sc)) :: tail) →
  StronglySorted wm_le
    (highest_over_seen (vars sc) :: row_watermarks current_score sc rows ++ tail).
Proof.
  revert sc. induction rows as [|r rows IH]; intros sc Hh Htail; [exact Htail|].
  cbn [row_watermarks fold_left app] in *.
  specialize (IH _ (process_row_numeric current_score sc r Hh) Htail).
  constructor; [exact IH|].
  apply StronglySorted_inv in IH as [_ Hall].
  pose proof (process_row_watermark_le current_score sc r Hh) as Hle.
  constructor; [exact Hle|].
  eapply Forall_wm_le_trans; eassumption.
Qed.

Lemma run_cycle_highest cfg st inp :
  highest_over_seen (after (run_cycle cfg st inp)) =
  match html_content inp with
  | None => highest_over_seen st
  | Some p =>
      highest_over_seen
        (vars (fold_left (process_row (current_score p)) (page_rows p) (begin_scan st)))
  end.
Proof.
  unfold run_cycle. destruct (html_content inp) as [p|]; [|reflexivity].
  rewrite <- scan_page_rows. destruct (notify cfg _). reflexivity.
Qed.

Lemma run_cycle_admitted cfg st inp :
  admitted (run_cycle cfg st inp) =
  match html_content inp with
  | None => []
  | Some p =>
      new_commentaries
        (fold_left (process_row (current_score p)) (page_rows p) (begin_scan st))
  end.
Proof.
  unfold run_cycle. destruct (html_content inp) as [p|]; [|reflexivity].
  rewrite <- scan_page_rows. destruct (notify cfg _). reflexivity.
Qed.

Lemma run_cycle_numeric cfg st inp :
  numeric st → numeric (after (run_cycle cfg st inp)).
Proof.
  unfold numeric. rewrite run_cycle_highest.
  destruct (html_content inp); [|auto].
  intros Hh. apply scan_numeric, Hh.
Qed.

Lemma watermarks_from_sorted cfg inputs st :
  numeric st →
  StronglySorted wm_le (highest_over_seen st :: watermarks_from cfg st inputs).
Proof.
  revert st. induction inputs as [|inp rest IH]; intros st Hh.
  - repeat constructor.
  - cbn [watermarks_from].
    specialize (IH _ (run_cycle_numeric cfg st inp Hh)).
    rewrite run_cycle_highest in IH. unfold cycle_watermarks.
    destruct (html_content inp) as [p|]; [|exact IH].
    apply (row_watermarks_sorted _ _ (begin_scan st)); assumption.
Qed.

(** A row below the watermark changes nothing. *)
Lemma below_watermark_skipped current_score sc over_num commentary_text :
  PyFloat.lt (over_to_float over_num) (highest_over_seen (vars sc)) = true →
  process_row current_score sc (Some over_num, commentary_text) = sc.
Proof.
  intros Hlt. rewrite process_row_eq. unfold admissible.
  rewrite Hlt, !andb_false_r. reflexivity.
Qed.

End Watermark.

(** * The order of the admitted events *)

Section AdmissionOrder.

Implicit Types (sc : scan) (st : tracker) (e : entry).

Lemma covered_grows h h' e :
  PyFloat.le h h' = true → covered h e → covered h' e.
Proof.
  intros Hle [Hnan|He]; [left; exact Hnan|right].
  eapply FloatOrder.le_trans; eassumption.
Qed.

(** An event at or above the watermark is not lower than any event the
    watermark covers. *)
Lemma covered_not_lower h a e :
  PyFloat.lt (position e) h = false → covered h a → admission_order a e.
Proof.
  intros Hnot Hcov.
  assert (Hlt : PyFloat.lt (position e) (position a) = false).
  { destruct Hcov as [Hnan|Hle]; [apply FloatOrder.lt_nan_r, Hnan|].
    destruct (PyFloat.lt (position e) (position a)) eqn:Hlt; [|reflexivity].
    rewrite (FloatOrder.lt_le_trans _ _ _ Hlt Hle) in Hnot. discriminate. }
  split; [exact Hlt|].
  intros Ha He. apply FloatOrder.not_lt_le; assumption.
Qed.

Lemma history_admit h events e :
  history_ok h events →
  PyFloat.lt (position e) h = false →
  history_ok (if PyFloat.gt (position e) h then position e else h) (events ++ [e]).
Proof.
  intros (Hh & Hcov & Hsorted) Hnot.
  set (h' := if PyFloat.gt (position e) h then position e else h).
  assert (Hh' : PyFloat.is_nan h' = false).
  { subst h'. destruct (PyFloat.gt _ _) eqn:Hgt; [|exact Hh].
    eapply gt_is_number, Hgt. }
  assert (Hle : PyFloat.le h h' = true).
  { subst h'. destruct (PyFloat.gt _ _) eqn:Hgt.
    - apply FloatOrder.lt_le, Hgt.
    - apply FloatOrder.le_refl, Hh. }
  split; [exact Hh'|]. split.
  - apply Forall_app. split.
    + eapply Forall_impl; [exact Hcov|]. intros a. apply covered_grows, Hle.
    + constructor; [|constructor].
      destruct (PyFloat.is_nan (position e)) eqn:He; [left; exact He|right].
      subst h'. destruct (PyFloat.gt _ _) eqn:Hgt.
      * apply FloatOrder.le_refl, He.
      * apply FloatOrder.not_lt_le; assumption.
  - apply StronglySorted_app_2; [|exact Hsorted|repeat constructor].
    intros a e' Ha He'. apply list_elem_of_singleton in He' as ->.
    apply (covered_not_lower h); [exact Hnot|].
    rewrite Forall_forall in Hcov. apply Hcov, Ha.
Qed.

Lemma process_row_history current_score sc row earlier :
  history_ok (highest_over_seen (vars sc)) (earlier ++ new_commentaries sc) →
  history_ok (highest_over_seen (vars (process_row current_score sc row)))
             (earlier ++ new_commentaries (process_row current_score sc row)).
Proof.
  intros Hok. destruct row as [[over_num|] text]; [|exact Hok].
  rewrite process_row_eq.
  destruct (admissible _ _ _) eqn:Hadm; [|exact Hok].
  unfold admissible in Hadm.
  apply andb_true_iff in Hadm as [_ Hnot]. apply negb_true_iff in Hnot.
  unfold admit_row; cbn [vars highest_over_seen new_commentaries].
  rewrite app_assoc.
  apply (history_admit _ _
           {| over := over_num; commentary := text;
              result := extract_result text; score := current_score |} Hok Hnot).
Qed.

Lemma scan_history current_score rows sc earlier :
  history_ok (highest_over_seen (vars sc)) (earlier ++ new_commentaries sc) →
  let sc' := fold_left (process_row current_score) rows sc in
  history_ok (highest_over_seen (vars sc')) (earlier ++ new_commentaries sc').
Proof.
  revert sc. induction rows as [|r rows IH]; intros sc Hok; [exact Hok|].
  cbn. apply IH, process_row_history, Hok.
Qed.

Lemma run_history cfg inputs st earlier :
  history_ok (highest_over_seen st) earlier →
  history_ok (highest_over_seen (final_state cfg st inputs))
             (earlier ++ concat (map admitted (run_from cfg st inputs))).
Proof.
  revert st earlier. induction inputs as [|inp rest IH]; intros st earlier Hok.
  - cbn. rewrite app_nil_r. exact Hok.
  - cbn [run_from map concat]. rewrite app_assoc.
    change (final_state cfg st (inp :: rest))
      with (final_state cfg (after (run_cycle cfg st inp)) rest).
    apply IH. rewrite run_cycle_highest, run_cycle_admitted.
    destruct (html_content inp) as [p|]; [|rewrite app_nil_r; exact Hok].
    apply scan_history. cbn. rewrite app_nil_r. exact Hok.
Qed.

Lemma initial_history : history_ok (highest_over_seen initial) [].
Proof. repeat split; constructor. Qed.

End AdmissionOrder.

(** C1 (as amended).  In every run the watermark never decreases from one
    processed row to the next; no admitted event has a position strictly
    below that of an event admitted before it, and of two admitted events
    whose positions are numbers the earlier has the smaller or equal
    position; and a row whose position is strictly below the watermark
    when it is evaluated leaves the new-events list and the seen set as
    they are. *)
Theorem watermark_and_admission_order :
  (∀ cfg inputs, StronglySorted wm_le (run_watermarks cfg inputs))
  ∧ (∀ cfg inputs, StronglySorted admission_order (run_admitted cfg inputs))
  ∧ (∀ current_score sc over_num commentary_text,
        PyFloat.lt (over_to_float over_num) (highest_over_seen (vars sc)) = true →
        process_row current_score sc (Some over_num, commentary_text) = sc).
Proof.
  split; [|split].
  - intros cfg inputs. apply watermarks_from_sorted, initial_numeric.
  - intros cfg inputs.
    apply (run_history cfg inputs initial [] initial_history).
  - exact below_watermark_skipped.
Qed.

(** After the over 49.2 has been admitted, a row of the over 48.6 is
    skipped. *)
Lemma watermark_and_admission_order_witness :
  let sc := scan_page (page_of "NZ 251/4 (49.2)" [("49.2", "FOUR! cracking shot")])
                      initial in
  process_row "NZ 251/4 (49.2)" sc (Some "48.6", "SIX! over the ropes") = sc.
Proof.
  apply (proj2 (proj2 watermark_and_admission_order)).
  vm_compute. reflexivity.
Defined.

(** The claim as the specification has it fails when an over number reads
    [nan]: the row is admitted after the over 3, and [3 <= nan] is false. *)
Lemma nan_position_admitted :
  map over (run_admitted discord_on
              [cycle_of "NZ 10/0 (3)" [("3", "FOUR!"); ("nan", "wide down leg")]])
    = ["3"; "nan"]
  ∧ PyFloat.le (over_to_float "3") (over_to_float "nan") = false.
Proof. split; vm_compute; reflexivity. Qed.

(** * Deduplication *)

Section Dedup.

Implicit Types (sc : scan) (st : tracker) (row : option string * string).

Lemma advance_refl st : advance st st.
Proof. split; [reflexivity|auto]. Qed.

Lemma advance_trans st1 st2 st3 :
  advance st1 st2 → advance st2 st3 → advance st1 st3.
Proof. intros [H1 H2] [H3 H4]. split; [set_solver|auto]. Qed.

Lemma process_row_advance current_score sc row :
  advance (vars sc) (vars (process_row current_score sc row)).
Proof.
  destruct row as [[over_num|] text]; [|apply advance_refl].
  rewrite process_row_eq.
  destruct (admissible _ _ _); [|apply advance_refl].
  unfold admit_row; split; cbn; [set_solver|].
  intros x Hx. destruct (PyFloat.gt _ _) eqn:Hgt; [|exact Hx].
  eapply FloatOrder.lt_le_trans; [exact Hx|apply FloatOrder.lt_le, Hgt].
Qed.

Lemma scan_advance current_score rows sc :
  advance (vars sc) (vars (fold_left (process_row current_score) rows sc)).
Proof.
  revert sc. induction rows as [|r rows IH]; intros sc; [apply advance_refl|].
  cbn. eapply advance_trans; [apply process_row_advance|apply IH].
Qed.

(** A row whose id has been seen changes nothing. *)
Lemma seen_row_skipped current_score sc over_num commentary_text :
  commentary_id over_num commentary_text ∈ seen_commentaries (vars sc) →
  process_row current_score sc (Some over_num, commentary_text) = sc.
Proof.
  intros Hin. rewrite process_row_eq. unfold admissible.
  rewrite (bool_decide_eq_true_2 _ Hin). reflexivity.
Qed.

(** An admitted row has its id in the seen set. *)
Lemma admitted_row_seen current_score sc over_num commentary_text :
  admissible (vars sc) over_num commentary_text = true →
  commentary_id over_num commentary_text ∈
    seen_commentaries
      (vars (process_row current_score sc (Some over_num, commentary_text))).
Proof.
  intros Hadm. rewrite process_row_eq, Hadm. cbn. set_solver.
Qed.

(** Once a row has been processed, it is skipped in every state the
    tracker moves on to. *)
Lemma processed_row_settled current_score current_score' sc row sc' :
  advance (vars (process_row current_score sc row)) (vars sc') →
  process_row current_score' sc' row = sc'.
Proof.
  destruct row as [[over_num|] text]; [|reflexivity].
  rewrite !process_row_eq.
  destruct (admissible (vars sc) over_num text) eqn:Hadm; intros [Hseen Hlow].
  - unfold admissible. rewrite bool_decide_eq_true_2; [reflexivity|].
    apply Hseen. cbn. set_solver.
  - unfold admissible in *.
    destruct (bool_decide (_ ∈ seen_commentaries (vars sc))) eqn:Hin.
    { apply bool_decide_eq_true_1 in Hin.
      rewrite bool_decide_eq_true_2; [reflexivity|auto]. }
    destruct (_ || _); [rewrite andb_false_r; reflexivity|].
    cbn in Hadm. apply negb_false_iff in Hadm.
    rewrite (Hlow _ Hadm), !andb_false_r. reflexivity.
Qed.

Lemma scanned_rows_settled current_score current_score' rows sc row sc' :
  row ∈ rows →
  advance (vars (fold_left (process_row current_score) rows sc)) (vars sc') →
  process_row current_score' sc' row = sc'.
Proof.
  revert sc. induction rows as [|r rows IH]; intros sc Hin Hadv.
  - inversion Hin.
  - cbn in Hadv. apply elem_of_cons in Hin as [->|Hin].
    + apply (processed_row_settled current_score _ sc).
      eapply advance_trans; [apply scan_advance|exact Hadv].
    + eapply IH; eassumption.
Qed.

Lemma settled_rows_scan current_score rows sc :
  (∀ row, row ∈ rows → process_row current_score sc row = sc) →
  fold_left (process_row current_score) rows sc = sc.
Proof.
  induction rows as [|r rows IH]; intros Hall; [reflexivity|].
  cbn. rewrite (Hall r) by (left; reflexivity).
  apply IH. intros row Hrow. apply Hall. right. exact Hrow.
Qed.

(** The new-events list of a scan only grows, and a row that adds nothing
    to it changes nothing. *)
Lemma process_row_length current_score sc row :
  process_row current_score sc row = sc
  ∨ length (new_commentaries (process_row current_score sc row))
    = S (length (new_commentaries sc)).
Proof.
  destruct row as [[over_num|] text]; [|left; reflexivity].
  rewrite process_row_eq. destruct (admissible _ _ _); [right|left; reflexivity].
  cbn. rewrite length_app. cbn. lia.
Qed.

Lemma scan_length current_score rows sc :
  (length (new_commentaries sc)
   ≤ length (new_commentaries (fold_left (process_row current_score) rows sc)))%nat.
Proof.
  revert sc. induction rows as [|r rows IH]; intros sc; [reflexivity|].
  cbn. specialize (IH (process_row current_score sc r)).
  destruct (process_row_length current_score sc r) as [Heq|Hlen];
    [rewrite Heq in IH |- *; exact IH|lia].
Qed.

Lemma scan_nothing_new current_score rows sc :
  length (new_commentaries (fold_left (process_row current_score) rows sc))
    = length (new_commentaries sc) →
  fold_left (process_row current_score) rows sc = sc.
Proof.
  revert sc. induction rows as [|r rows IH]; intros sc Hlen; [reflexivity|].
  cbn in *. pose proof (scan_length current_score rows (process_row current_score sc r)).
  destruct (process_row_length current_score sc r) as [Heq|Hmore]; [|lia].
  rewrite Heq in *. apply IH, Hlen.
Qed.

End Dedup.

(** * One cycle *)

Section Cycle.

Implicit Types (sc : scan) (st : tracker) (row : option string * string).

(** ** The cap on the seen set *)

Lemma evict_small ls (seen : gset string) : size seen ≤ 1000 → evict ls seen = seen.
Proof.
  intros Hsize. unfold evict. rewrite bool_decide_eq_false_2; [reflexivity|lia].
Qed.

Lemma evict_subseteq ls (seen : gset string) : evict ls seen ⊆ seen.
Proof.
  unfold evict. destruct (bool_decide _); [|reflexivity].
  intros k Hk. apply elem_of_list_to_set in Hk.
  apply subseteq_drop in Hk. rewrite (as_list_perm ls seen) in Hk.
  apply elem_of_elements, Hk.
Qed.

Lemma evict_size ls (seen : gset string) : size (evict ls seen) ≤ 1000.
Proof.
  unfold evict. destruct (bool_decide _) eqn:Hbig.
  - apply bool_decide_eq_true_1 in Hbig.
    rewrite size_list_to_set.
    + unfold last_n. rewrite length_drop. lia.
    + eapply sublist_NoDup; [|apply sublist_drop].
      rewrite (as_list_perm ls seen). apply NoDup_elements.
  - apply bool_decide_eq_false_1 in Hbig. lia.
Qed.

(** ** The maximum that [max] picks *)

Lemma py_max_fold {A} (key : A → float64) rest before best :
  best ∈ before →
  (∀ x, x ∈ before → PyFloat.gt (key x) (key best) = false) →
  let m := py_max key best rest in
  m ∈ before ++ rest ∧ ∀ x, x ∈ before ++ rest → PyFloat.gt (key x) (key m) = false.
Proof.
  revert before best. induction rest as [|y rest IH]; intros before best Hin Hmax.
  - cbn. rewrite app_nil_r. auto.
  - cbn [py_max fold_left].
    replace (before ++ y :: rest) with ((before ++ [y]) ++ rest)
      by (rewrite <- app_assoc; reflexivity).
    apply IH.
    + apply elem_of_app.
      destruct (PyFloat.gt (key y) (key best)); [right; left|left; exact Hin].
    + intros x Hx. apply elem_of_app in Hx as [Hx|Hx].
      * destruct (PyFloat.gt (key y) (key best)) eqn:Hgt; [|auto].
        destruct (PyFloat.gt (key x) (key y)) eqn:Hxy; [|reflexivity].
        rewrite <- (Hmax x Hx). symmetry. unfold PyFloat.gt in *.
        eapply FloatOrder.lt_le_trans; [exact Hgt|apply FloatOrder.lt_le, Hxy].
      * apply list_elem_of_singleton in Hx as ->.
        destruct (PyFloat.gt (key y) (key best)) eqn:Hgt; [|exact Hgt].
        apply FloatOrder.lt_irrefl.
Qed.

Lemma py_max_maximal first rest :
  maximal_in (first :: rest) (py_max position first rest).
Proof.
  apply (py_max_fold position rest [first] first).
  - left.
  - intros x Hx. apply list_elem_of_singleton in Hx as ->.
    apply FloatOrder.lt_irrefl.
Qed.

(** ** The notification gate *)

(** Either nothing is sent and [last_sent_over] stays, or the gate opens
    for the maximum of a non-empty new-events list whose over text differs
    from [last_sent_over]. *)
Lemma notify_spec cfg sc :
  notify cfg sc = (last_sent_over (vars sc), [])
  ∨ ∃ first rest,
      new_commentaries sc = first :: rest
      ∧ last_sent_over (vars sc) ≠ Some (over (py_max position first rest))
      ∧ notify cfg sc =
          (Some (over (py_max position first rest)),
           if discord_enabled cfg
           then dispatch cfg (py_max position first rest) else []).
Proof.
  unfold notify. destruct (_ && _); [|left; reflexivity].
  destruct (new_commentaries sc) as [|first rest]; [left; reflexivity|].
  fold (position). change (fun x => over_to_float (over x)) with position.
  destruct (bool_decide _) eqn:Hne; [|left; reflexivity].
  apply bool_decide_eq_true_1 in Hne. right. exists first, rest. auto.
Qed.

Lemma notify_same_over cfg sc first rest :
  new_commentaries sc = first :: rest →
  last_sent_over (vars sc) = Some (over (py_max position first rest)) →
  notify cfg sc = (last_sent_over (vars sc), []).
Proof.
  intros Hnew Hlast.
  destruct (notify_spec cfg sc) as [H|(f & r & Hnew' & Hne & _)]; [exact H|].
  rewrite Hnew in Hnew'. injection Hnew' as <- <-. contradiction.
Qed.

Lemma notify_nothing_new cfg sc :
  new_commentaries sc = [] → notify cfg sc = (last_sent_over (vars sc), []).
Proof.
  intros Hnew. unfold notify. rewrite Hnew, andb_false_r. reflexivity.
Qed.

(** ** The parts of a cycle's result *)

Lemma process_row_last current_score sc row :
  last_sent_over (vars (process_row current_score sc row)) = last_sent_over (vars sc).
Proof.
  destruct row as [[over_num|] text]; [|reflexivity].
  rewrite process_row_eq. destruct (admissible _ _ _); reflexivity.
Qed.

Lemma scan_page_last p st : last_sent_over (vars (scan_page p st)) = last_sent_over st.
Proof.
  rewrite scan_page_rows.
  change (last_sent_over st) with (last_sent_over (vars (begin_scan st))).
  generalize (begin_scan st) as sc.
  induction (page_rows p) as [|r rows IH]; intros sc; [reflexivity|].
  cbn. rewrite IH. apply process_row_last.
Qed.

Lemma run_cycle_failed cfg st inp :
  html_content inp = None →
  run_cycle cfg st inp = {| after := st; admitted := []; effects := [] |}.
Proof. intros H. unfold run_cycle. rewrite H. reflexivity. Qed.

Lemma run_cycle_fetched cfg st inp p :
  html_content inp = Some p →
  run_cycle cfg st inp =
  {| after := {| seen_commentaries :=
                   evict (listing inp) (seen_commentaries (vars (scan_page p st)));
                 highest_over_seen := highest_over_seen (vars (scan_page p st));
                 last_sent_over := fst (notify cfg (scan_page p st)) |};
     admitted := new_commentaries (scan_page p st);
     effects := snd (notify cfg (scan_page p st)) |}.
Proof.
  intros H. unfold run_cycle. rewrite H.
  destruct (notify cfg (scan_page p st)). reflexivity.
Qed.

(** A cycle in which the scan leaves its variables alone and the seen set
    is within the cap gives back the tracker it started from. *)
Lemma run_cycle_idle cfg st inp p :
  html_content inp = Some p →
  scan_page p st = begin_scan st →
  size (seen_commentaries st) ≤ 1000 →
  run_cycle cfg st inp = {| after := st; admitted := []; effects := [] |}.
Proof.
  intros Hp Hscan Hsize. rewrite (run_cycle_fetched _ _ _ _ Hp), Hscan.
  rewrite notify_nothing_new by reflexivity. cbn.
  rewrite evict_small by exact Hsize. destruct st; reflexivity.
Qed.

(** A cycle that admits nothing, with the seen set within the cap. *)
Lemma quiet_cycle cfg st inp :
  size (seen_commentaries st) ≤ 1000 →
  admitted (run_cycle cfg st inp) = [] →
  run_cycle cfg st inp = {| after := st; admitted := []; effects := [] |}.
Proof.
  intros Hsize Hadm.
  destruct (html_content inp) as [p|] eqn:Hp; [|apply run_cycle_failed, Hp].
  apply (run_cycle_idle _ _ _ p Hp); [|exact Hsize].
  rewrite (run_cycle_fetched _ _ _ _ Hp) in Hadm. cbn in Hadm.
  rewrite scan_page_rows in *. apply scan_nothing_new.
  rewrite Hadm. reflexivity.
Qed.

(** The seen set of a run stays within the cap from one cycle to the next. *)
Lemma run_cycle_size cfg st inp :
  size (seen_commentaries st) ≤ 1000 →
  size (seen_commentaries (after (run_cycle cfg st inp))) ≤ 1000.
Proof.
  intros Hsize. destruct (html_content inp) as [p|] eqn:Hp.
  - rewrite (run_cycle_fetched _ _ _ _ Hp). apply evict_size.
  - rewrite (run_cycle_failed _ _ _ Hp). exact Hsize.
Qed.

Lemma final_state_size cfg inputs st :
  size (seen_commentaries st) ≤ 1000 →
  size (seen_commentaries (final_state cfg st inputs)) ≤ 1000.
Proof.
  revert st. induction inputs as [|inp rest IH]; intros st Hsize; [exact Hsize|].
  apply IH, run_cycle_size, Hsize.
Qed.

(** A document whose rows were all part of the previous document, with no
    eviction in between: nothing is admitted, nothing is sent, and the
    tracker stays. *)
Lemma repeated_rows_quiet cfg st inp1 inp2 p1 p2 :
  html_content inp1 = Some p1 →
  html_content inp2 = Some p2 →
  (∀ row, row ∈ page_rows p2 → row ∈ page_rows p1) →
  ¬ evicts st inp1 →
  run_cycle cfg (after (run_cycle cfg st inp1)) inp2 =
  {| after := after (run_cycle cfg st inp1); admitted := []; effects := [] |}.
Proof.
  intros Hp1 Hp2 Hrows Hno.
  unfold evicts in Hno. rewrite Hp1 in Hno.
  assert (Hsize : size (seen_commentaries (vars (scan_page p1 st))) ≤ 1000) by lia.
  set (st1 := after (run_cycle cfg st inp1)).
  assert (Hadv : advance (vars (scan_page p1 st)) st1).
  { subst st1. rewrite (run_cycle_fetched _ _ _ _ Hp1). cbn.
    rewrite evict_small by exact Hsize. split; cbn; [reflexivity|auto]. }
  apply (run_cycle_idle _ _ _ p2 Hp2).
  - rewrite scan_page_rows. apply settled_rows_scan.
    intros row Hrow. rewrite scan_page_rows in Hadv.
    eapply (scanned_rows_settled (current_score p1)); [apply Hrows, Hrow|exact Hadv].
  - subst st1. rewrite (run_cycle_fetched _ _ _ _ Hp1). cbn.
    rewrite evict_small; exact Hsize.
Qed.

End Cycle.

(** C10.  A cycle of a run that admits no event and ends with at most
    1000 seen ids leaves the tracker (seen ids, watermark, last sent over)
    as it found it; more generally this is so from any tracker whose seen
    set is within the cap when the cycle starts.  In particular a row
    whose id has already been seen changes nothing, whatever its
    position. *)
Theorem quiet_cycle_frame :
  (∀ cfg inputs inp,
      let st := final_state cfg initial inputs in
      admitted (run_cycle cfg st inp) = [] →
      size (seen_commentaries (after (run_cycle cfg st inp))) ≤ 1000 →
      after (run_cycle cfg st inp) = st)
  ∧ (∀ cfg st inp,
        size (seen_commentaries st) ≤ 1000 →
        admitted (run_cycle cfg st inp) = [] →
        after (run_cycle cfg st inp) = st)
  ∧ (∀ current_score sc over_num commentary_text,
        commentary_id over_num commentary_text ∈ seen_commentaries (vars sc) →
        process_row current_score sc (Some over_num, commentary_text) = sc).
Proof.
  split; [|split].
  - intros cfg inputs inp st Hadm _.
    rewrite quiet_cycle; [reflexivity| |exact Hadm].
    apply final_state_size. cbn. rewrite size_empty. lia.
  - intros cfg st inp Hsize Hadm. rewrite quiet_cycle; auto.
  - exact seen_row_skipped.
Qed.

(** The second poll of an unchanged page. *)
Lemma quiet_cycle_frame_witness :
  let c := cycle_of "NZ 251/4 (49.2)" [("49.2", "FOUR! cracking shot")] in
  after (run_cycle discord_on (final_state discord_on initial [c]) c)
  = final_state discord_on initial [c].
Proof.
  apply (proj1 quiet_cycle_frame discord_on
           [cycle_of "NZ 251/4 (49.2)" [("49.2", "FOUR! cracking shot")]]).
  - vm_compute. reflexivity.
  - vm_compute. lia.
Defined.

(** * Claims about deduplication *)

Lemma page_of_rows current_score rows :
  page_rows (page_of current_score rows)
  = map (fun r => (Some (fst r), snd r)) rows.
Proof.
  unfold page_rows, page_of; cbn. rewrite app_nil_r.
  destruct rows as [|r rows]; [reflexivity|].
  cbn [map nonempty andb]. revert r.
  induction rows as [|r' rows IH]; intros r; [reflexivity|].
  cbn. f_equal. apply IH.
Qed.

Lemma single_row_admitted cfg st inp current_score over_num commentary_text :
  html_content inp = Some (page_of current_score [(over_num, commentary_text)]) →
  length (admitted (run_cycle cfg st inp))
  = if admissible st over_num commentary_text then 1 else 0.
Proof.
  intros Hp. rewrite (run_cycle_fetched _ _ _ _ Hp). cbn [admitted].
  rewrite scan_page_rows, page_of_rows. cbn [map fold_left fst snd].
  rewrite process_row_eq. cbn [vars begin_scan].
  destruct (admissible _ _ _); reflexivity.
Qed.

(** C2 (as amended).  Processing the same (over, text) pair twice in a
    row admits at most one event: the second pass changes nothing, and the
    first admits one event exactly when the pair is admissible (new id,
    result other than ["event"], over other than ["N/A"], position not
    below the watermark), in which case it puts the id of the pair into
    the seen set.  A row whose id is in the seen set is skipped.  The same
    holds across two cycles that each fetch the pair, when the first does
    not evict. *)
Theorem dedup_second_occurrence :
  (∀ current_score sc over_num commentary_text,
      let row := (Some over_num, commentary_text) in
      let sc1 := process_row current_score sc row in
      process_row current_score sc1 row = sc1
      ∧ length (new_commentaries sc1)
        = length (new_commentaries sc)
          + (if admissible (vars sc) over_num commentary_text then 1 else 0)
      ∧ (admissible (vars sc) over_num commentary_text = true →
         commentary_id over_num commentary_text ∈ seen_commentaries (vars sc1)))
  ∧ (∀ current_score sc over_num commentary_text,
        commentary_id over_num commentary_text ∈ seen_commentaries (vars sc) →
        process_row current_score sc (Some over_num, commentary_text) = sc)
  ∧ (∀ cfg st inp1 inp2 score1 score2 over_num commentary_text,
        html_content inp1 = Some (page_of score1 [(over_num, commentary_text)]) →
        html_content inp2 = Some (page_of score2 [(over_num, commentary_text)]) →
        ¬ evicts st inp1 →
        let r1 := run_cycle cfg st inp1 in
        let r2 := run_cycle cfg (after r1) inp2 in
        admitted r2 = []
        ∧ length (admitted r1)
          = if admissible st over_num commentary_text then 1 else 0).
Proof.
  split; [|split].
  - intros current_score sc over_num commentary_text row sc1.
    split; [|split].
    + apply (processed_row_settled current_score _ sc), advance_refl.
    + subst sc1 row. rewrite process_row_eq.
      destruct (admissible _ _ _); cbn; [rewrite length_app; cbn|]; lia.
    + apply admitted_row_seen.
  - exact seen_row_skipped.
  - intros cfg st inp1 inp2 score1 score2 over_num commentary_text Hp1 Hp2 Hno r1 r2.
    split; [|apply (single_row_admitted _ _ _ score1), Hp1].
    subst r1 r2. rewrite (repeated_rows_quiet _ _ _ _ _ _ Hp1 Hp2); [reflexivity| |exact Hno].
    intros row. rewrite !page_of_rows. auto.
Qed.

(** Two polls of a page with one boundary. *)
Lemma dedup_second_occurrence_witness :
  let c := cycle_of "NZ 251/4 (49.2)" [("49.2", "FOUR! cracking shot")] in
  admitted (run_cycle discord_on (after (run_cycle discord_on initial c)) c) = []
  ∧ length (admitted (run_cycle discord_on initial c)) = 1.
Proof.
  apply (proj2 (proj2 dedup_second_occurrence) discord_on initial
           (cycle_of "NZ 251/4 (49.2)" [("49.2", "FOUR! cracking shot")])
           (cycle_of "NZ 251/4 (49.2)" [("49.2", "FOUR! cracking shot")])
           "NZ 251/4 (49.2)" "NZ 251/4 (49.2)" "49.2" "FOUR! cracking shot").
  - reflexivity.
  - reflexivity.
  - unfold evicts. vm_compute. lia.
Defined.

(** A pair whose text has no result is admitted neither the first nor the
    second time, in one cycle or in two: twice the same pair does not
    always make one event. *)
Lemma generic_pair_never_admitted :
  run_admitted discord_on
    [cycle_of "NZ 251/4 (49.2)" [("49.2", "hello there"); ("49.2", "hello there")]] = []
  ∧ run_admitted discord_on
      [cycle_of "NZ 251/4 (49.2)" [("49.2", "hello there")];
       cycle_of "NZ 251/4 (49.2)" [("49.2", "hello there")]] = [].
Proof. split; vm_compute; reflexivity. Qed.

(** * Claims about notification *)

(** What a cycle does to [last_sent_over] and to the pool: nothing, or the
    gate opens for a maximal admitted event whose over text differs from
    [last_sent_over], which becomes that text, the message being sent when
    Discord is enabled. *)
Lemma run_cycle_notify cfg st inp :
  let r := run_cycle cfg st inp in
  (last_sent_over (after r) = last_sent_over st ∧ effects r = [])
  ∨ ∃ e, maximal_in (admitted r) e
         ∧ last_sent_over st ≠ Some (over e)
         ∧ last_sent_over (after r) = Some (over e)
         ∧ effects r = if discord_enabled cfg then dispatch cfg e else [].
Proof.
  cbn zeta. destruct (html_content inp) as [p|] eqn:Hp.
  - rewrite (run_cycle_fetched _ _ _ _ Hp). cbn.
    destruct (notify_spec cfg (scan_page p st))
      as [H|(first & rest & Hnew & Hne & H)]; rewrite H; cbn.
    + left. split; [apply scan_page_last|reflexivity].
    + right. exists (py_max position first rest).
      rewrite Hnew. rewrite scan_page_last in Hne.
      split; [apply py_max_maximal|auto].
  - rewrite (run_cycle_failed _ _ _ Hp). left. split; reflexivity.
Qed.

Lemma submitted_dispatch cfg e : submitted (dispatch cfg e) = [discord_message e].
Proof. reflexivity. Qed.

(** C3 (as amended).  In one cycle a notification is dispatched only for
    an admitted event that no other admitted event of the cycle exceeds in
    position, and only if its over text differs from [last_sent_over] and
    Discord is enabled; so at most one message is submitted per cycle.  A
    cycle whose maximum carries the over text that [last_sent_over] holds
    dispatches nothing, and neither does a cycle that admits nothing; a
    document polled a second time, with no eviction in between, admits
    nothing and dispatches nothing. *)
Theorem notification_gate :
  (∀ cfg st inp,
      let r := run_cycle cfg st inp in
      effects r = []
      ∨ ∃ e, maximal_in (admitted r) e
             ∧ last_sent_over st ≠ Some (over e)
             ∧ discord_enabled cfg = true
             ∧ effects r = dispatch cfg e)
  ∧ (∀ cfg st inp, length (submitted (effects (run_cycle cfg st inp))) ≤ 1)
  ∧ (∀ cfg st inp first rest,
        admitted (run_cycle cfg st inp) = first :: rest →
        last_sent_over st = Some (over (py_max position first rest)) →
        effects (run_cycle cfg st inp) = [])
  ∧ (∀ cfg st inp,
        admitted (run_cycle cfg st inp) = [] → effects (run_cycle cfg st inp) = [])
  ∧ (∀ cfg st inp1 inp2 p,
        html_content inp1 = Some p →
        html_content inp2 = Some p →
        ¬ evicts st inp1 →
        let r2 := run_cycle cfg (after (run_cycle cfg st inp1)) inp2 in
        admitted r2 = [] ∧ effects r2 = []).
Proof.
  split; [|split; [|split; [|split]]].
  - intros cfg st inp r.
    destruct (run_cycle_notify cfg st inp) as [[_ H]|(e & Hmax & Hne & _ & H)];
      [left; exact H|].
    fold r in H, Hmax. destruct (discord_enabled cfg) eqn:Hon; [right|left; exact H].
    exists e. auto.
  - intros cfg st inp.
    destruct (run_cycle_notify cfg st inp) as [[_ H]|(e & _ & _ & _ & H)];
      rewrite H; [cbn; lia|].
    destruct (discord_enabled cfg); cbn; lia.
  - intros cfg st inp first rest Hadm Hlast.
    destruct (html_content inp) as [p|] eqn:Hp;
      [|rewrite (run_cycle_failed _ _ _ Hp); reflexivity].
    rewrite (run_cycle_fetched _ _ _ _ Hp) in *. cbn in *.
    rewrite (notify_same_over cfg _ first rest); [reflexivity|exact Hadm|].
    rewrite scan_page_last. exact Hlast.
  - intros cfg st inp Hadm.
    destruct (html_content inp) as [p|] eqn:Hp;
      [|rewrite (run_cycle_failed _ _ _ Hp); reflexivity].
    rewrite (run_cycle_fetched _ _ _ _ Hp) in *. cbn in *.
    rewrite notify_nothing_new; [reflexivity|exact Hadm].
  - intros cfg st inp1 inp2 p Hp1 Hp2 Hno r2. subst r2.
    rewrite (repeated_rows_quiet _ _ _ _ _ _ Hp1 Hp2); auto.
Qed.

(** An unchanged page polled twice: the second poll sends nothing. *)
Lemma notification_gate_witness :
  let c := cycle_of "NZ 251/4 (49.2)" [("49.2", "FOUR! cracking shot")] in
  let r2 := run_cycle discord_on (after (run_cycle discord_on initial c)) c in
  admitted r2 = [] ∧ effects r2 = [].
Proof.
  apply (proj2 (proj2 (proj2 (proj2 notification_gate))) discord_on initial
           (cycle_of "NZ 251/4 (49.2)" [("49.2", "FOUR! cracking shot")])
           (cycle_of "NZ 251/4 (49.2)" [("49.2", "FOUR! cracking shot")])
           (page_of "NZ 251/4 (49.2)" [("49.2", "FOUR! cracking shot")])).
  - reflexivity.
  - reflexivity.
  - unfold evicts. vm_compute. lia.
Defined.

(** The over 49.2 has been notified; the next page shows a row whose over
    reads 49.20.  Its position equals the one already notified, and a
    second notification goes out all the same, since the over texts
    differ. *)
Lemma same_position_notified_again :
  let c1 := cycle_of "NZ 251/4 (49.2)" [("49.2", "FOUR! cracking shot")] in
  let c2 := cycle_of "NZ 257/4 (49.2)" [("49.20", "SIX! into the stands")] in
  let r1 := run_cycle discord_on initial c1 in
  let r2 := run_cycle discord_on (after r1) c2 in
  last_sent_over (after r1) = Some "49.2"
  ∧ map over (admitted r2) = ["49.20"]
  ∧ PyFloat.eq (over_to_float "49.20") (over_to_float "49.2") = true
  ∧ PyFloat.gt (over_to_float "49.20") (over_to_float "49.2") = false
  ∧ submitted (effects r2) = ["Over: 49.20 | Result: 6 | Score: NZ 257/4 (49.2)"].
Proof. repeat split; vm_compute; reflexivity. Qed.

(** [tracks] is kept by every cycle when Discord is enabled. *)
Lemma run_cycle_tracks cfg st inp effs events :
  discord_enabled cfg = true →
  tracks st effs events →
  let r := run_cycle cfg st inp in
  tracks (after r) (effs ++ effects r) (events ++ admitted r).
Proof.
  intros Hon Htr r. subst r. unfold tracks in *.
  destruct (run_cycle_notify cfg st inp)
    as [[Hlast H]|(e & [Hin _] & _ & Hlast & H)]; rewrite H, Hlast.
  - rewrite app_nil_r.
    destruct (last (submitted effs)) as [m|]; [|exact Htr].
    destruct Htr as (e & He & Hm & Hl). exists e.
    split; [apply elem_of_app; left; exact He|auto].
  - rewrite Hon. unfold submitted. rewrite omap_app.
    fold (submitted effs). fold (submitted (dispatch cfg e)).
    rewrite submitted_dispatch, last_snoc.
    exists e. split; [apply elem_of_app; right; exact Hin|auto].
Qed.

Lemma run_tracks cfg inputs st effs events :
  discord_enabled cfg = true →
  tracks st effs events →
  tracks (final_state cfg st inputs)
         (effs ++ concat (map effects (run_from cfg st inputs)))
         (events ++ concat (map admitted (run_from cfg st inputs))).
Proof.
  intros Hon. revert st effs events.
  induction inputs as [|inp rest IH]; intros st effs events Htr.
  - cbn. rewrite !app_nil_r. exact Htr.
  - cbn [run_from map concat]. rewrite !app_assoc.
    apply (IH (after (run_cycle cfg st inp))).
    apply run_cycle_tracks; assumption.
Qed.

(** C7 (as amended).  With Discord enabled, [last_sent_over] is at every
    point of a run the over text of the event whose message was submitted
    last, or [None] when no message has been submitted; and a cycle in
    which [last_sent_over] changes is a cycle that dispatches the
    notification of the event whose over text it takes. *)
Theorem last_sent_over_tracks_dispatch cfg :
  discord_enabled cfg = true →
  (∀ inputs,
      match last (submitted (run_effects cfg inputs)) with
      | None => last_sent_over (final_state cfg initial inputs) = None
      | Some m =>
          ∃ e, e ∈ run_admitted cfg inputs
               ∧ m = discord_message e
               ∧ last_sent_over (final_state cfg initial inputs) = Some (over e)
      end)
  ∧ (∀ st inp,
        let r := run_cycle cfg st inp in
        last_sent_over (after r) ≠ last_sent_over st →
        ∃ e, e ∈ admitted r
             ∧ effects r = dispatch cfg e
             ∧ last_sent_over (after r) = Some (over e)).
Proof.
  intros Hon. split.
  - intros inputs.
    apply (run_tracks cfg inputs initial [] [] Hon). reflexivity.
  - intros st inp r Hchange. subst r.
    destruct (run_cycle_notify cfg st inp)
      as [[Hlast _]|(e & [Hin _] & _ & Hlast & H)]; [contradiction|].
    rewrite Hon in H. exists e. auto.
Qed.

(** One notified boundary, then an unchanged page. *)
Lemma last_sent_over_tracks_dispatch_witness :
  let c := cycle_of "NZ 251/4 (49.2)" [("49.2", "FOUR! cracking shot")] in
  ∃ e, e ∈ run_admitted discord_on [c; c]
       ∧ "Over: 49.2 | Result: 4 | Score: NZ 251/4 (49.2)" = discord_message e
       ∧ last_sent_over (final_state discord_on initial [c; c]) = Some (over e).
Proof.
  exact (proj1 (last_sent_over_tracks_dispatch discord_on eq_refl)
           [cycle_of "NZ 251/4 (49.2)" [("49.2", "FOUR! cracking shot")];
            cycle_of "NZ 251/4 (49.2)" [("49.2", "FOUR! cracking shot")]]).
Defined.

(** With Discord disabled nothing is ever submitted, and [last_sent_over]
    is set all the same. *)
Lemma last_sent_over_without_dispatch :
  let c := cycle_of "NZ 251/4 (49.2)" [("49.2", "FOUR! cracking shot")] in
  run_effects discord_off [c] = []
  ∧ last_sent_over (final_state discord_off initial [c]) = Some "49.2".
Proof. split; vm_compute; reflexivity. Qed.

(** A dispatched notification is waited for: the pool is shut down with
    [wait=True] right after the job has been submitted. *)
Lemma submit_then_wait cfg st inp message token channel_ids :
  ExecutorSubmit message token channel_ids ∈ effects (run_cycle cfg st inp) →
  effects (run_cycle cfg st inp)
  = [ExecutorSubmit message token channel_ids; ExecutorShutdown true].
Proof.
  destruct (run_cycle_notify cfg st inp) as [[_ H]|(e & _ & _ & _ & H)];
    rewrite H; [inversion 1|].
  destruct (discord_enabled cfg); [|inversion 1].
  unfold dispatch. intros Hin.
  apply elem_of_cons in Hin as [->|Hin]; [reflexivity|].
  apply list_elem_of_singleton in Hin. discriminate.
Qed.

(** C9, on the code.  The cycle that dispatches the notification of the
    over 49.2 submits the job and then shuts the pool down waiting for it:
    the poll loop does not go on before [send_to_discord] has returned. *)
Theorem notification_is_awaited :
  effects (run_cycle discord_on initial
             (cycle_of "NZ 251/4 (49.2)" [("49.2", "FOUR! cracking shot")]))
  = [ ExecutorSubmit "Over: 49.2 | Result: 4 | Score: NZ 251/4 (49.2)"
                     "token" ["channel"];
      ExecutorShutdown true ].
Proof. vm_compute. reflexivity. Qed.

(** * Claims about what is admitted *)

Section AdmittedEvents.

Implicit Types (sc : scan) (st : tracker) (e : entry).

(** A row whose text has no result is skipped. *)
Lemma generic_row_skipped current_score sc over_num commentary_text :
  extract_result commentary_text = "event" →
  process_row current_score sc (Some over_num, commentary_text) = sc.
Proof.
  intros Hgen. rewrite process_row_eq. unfold admissible.
  rewrite Hgen. cbn. rewrite andb_false_r. reflexivity.
Qed.

Lemma backed_more st events events' :
  backed st events → backed st (events ++ events').
Proof.
  intros Hb k Hk. destruct (Hb k Hk) as (e & He & Hid).
  exists e. split; [apply elem_of_app; left; exact He|exact Hid].
Qed.

Lemma process_row_backed current_score sc row earlier :
  Forall notable (earlier ++ new_commentaries sc)
  ∧ backed (vars sc) (earlier ++ new_commentaries sc) →
  Forall notable (earlier ++ new_commentaries (process_row current_score sc row))
  ∧ backed (vars (process_row current_score sc row))
           (earlier ++ new_commentaries (process_row current_score sc row)).
Proof.
  intros [Hnot Hback]. destruct row as [[over_num|] text]; [|auto].
  rewrite process_row_eq.
  destruct (admissible _ _ _) eqn:Hadm; [|auto].
  unfold admit_row; cbn [vars seen_commentaries new_commentaries].
  rewrite app_assoc. split.
  - apply Forall_app. split; [exact Hnot|].
    constructor; [|constructor].
    unfold admissible in Hadm.
    apply andb_true_iff in Hadm as [Hadm _].
    apply andb_true_iff in Hadm as [_ Hadm].
    apply negb_true_iff, orb_false_iff in Hadm as [Hev Hna].
    apply String.eqb_neq in Hev, Hna.
    repeat split; assumption.
  - intros k Hk. apply elem_of_union in Hk as [Hk|Hk].
    + apply elem_of_singleton in Hk as ->.
      eexists. split; [apply elem_of_app; right; left|reflexivity].
    + apply (backed_more _ _ _ Hback), Hk.
Qed.

Lemma scan_backed current_score rows sc earlier :
  Forall notable (earlier ++ new_commentaries sc)
  ∧ backed (vars sc) (earlier ++ new_commentaries sc) →
  let sc' := fold_left (process_row current_score) rows sc in
  Forall notable (earlier ++ new_commentaries sc')
  ∧ backed (vars sc') (earlier ++ new_commentaries sc').
Proof.
  revert sc. induction rows as [|r rows IH]; intros sc H; [exact H|].
  cbn. apply IH, process_row_backed, H.
Qed.

Lemma run_cycle_backed cfg st inp earlier :
  Forall notable earlier ∧ backed st earlier →
  let r := run_cycle cfg st inp in
  Forall notable (earlier ++ admitted r) ∧ backed (after r) (earlier ++ admitted r).
Proof.
  intros H r. subst r. destruct (html_content inp) as [p|] eqn:Hp.
  - rewrite (run_cycle_fetched _ _ _ _ Hp). cbn [after admitted].
    rewrite scan_page_rows.
    destruct (scan_backed (current_score p) (page_rows p) (begin_scan st) earlier)
      as [Hnot Hback]; [cbn; rewrite app_nil_r; exact H|].
    split; [exact Hnot|].
    intros k Hk. cbn in Hk. apply evict_subseteq in Hk. apply Hback, Hk.
  - rewrite (run_cycle_failed _ _ _ Hp). cbn. rewrite app_nil_r. exact H.
Qed.

Lemma run_backed cfg inputs st earlier :
  Forall notable earlier ∧ backed st earlier →
  Forall notable (earlier ++ concat (map admitted (run_from cfg st inputs)))
  ∧ backed (final_state cfg st inputs)
           (earlier ++ concat (map admitted (run_from cfg st inputs))).
Proof.
  revert st earlier. induction inputs as [|inp rest IH]; intros st earlier H.
  - cbn. rewrite app_nil_r. exact H.
  - cbn [run_from map concat]. rewrite app_assoc.
    apply (IH (after (run_cycle cfg st inp))), run_cycle_backed, H.
Qed.

Lemma initial_backed : Forall notable [] ∧ backed initial [].
Proof.
  split; [constructor|]. intros k Hk. cbn in Hk. set_solver.
Qed.

(** A text that does not parse is coerced to [-1], and is skipped once
    the watermark is above [-1]. *)
Lemma over_to_float_failure over_num :
  PyFloat.float over_num = None → over_to_float over_num = minus_one.
Proof. intros H. unfold over_to_float. rewrite H. reflexivity. Qed.

Lemma unparseable_skipped_above_sentinel current_score sc over_num commentary_text :
  PyFloat.float over_num = None →
  PyFloat.lt minus_one (highest_over_seen (vars sc)) = true →
  process_row current_score sc (Some over_num, commentary_text) = sc.
Proof.
  intros Hfail Habove. apply below_watermark_skipped.
  rewrite (over_to_float_failure _ Hfail). exact Habove.
Qed.

End AdmittedEvents.

(** C6 (as amended).  In every run each admitted event carries the result
    of its own text, a result other than ["event"], and an over text other
    than ["N/A"]; every id in the seen set is the id of an admitted event;
    and a row whose text is classified ["event"] is skipped by every
    scan. *)
Theorem seen_ids_are_admitted :
  (∀ cfg inputs e, e ∈ run_admitted cfg inputs → notable e)
  ∧ (∀ cfg inputs k,
        k ∈ seen_commentaries (final_state cfg initial inputs) →
        ∃ e, e ∈ run_admitted cfg inputs
             ∧ k = commentary_id (over e) (commentary e))
  ∧ (∀ current_score sc over_num commentary_text,
        extract_result commentary_text = "event" →
        process_row current_score sc (Some over_num, commentary_text) = sc).
Proof.
  split; [|split].
  - intros cfg inputs e He.
    destruct (run_backed cfg inputs initial [] initial_backed) as [Hnot _].
    rewrite Forall_forall in Hnot. apply Hnot, He.
  - intros cfg inputs k Hk.
    destruct (run_backed cfg inputs initial [] initial_backed) as [_ Hback].
    apply Hback, Hk.
  - exact generic_row_skipped.
Qed.

(** A row without a result, after a boundary has been admitted. *)
Lemma seen_ids_are_admitted_witness :
  let sc := scan_page (page_of "NZ 251/4 (49.2)" [("49.2", "FOUR! cracking shot")])
                      initial in
  process_row "NZ 251/4 (49.2)" sc (Some "49.3", "good length, defended") = sc.
Proof.
  apply (proj2 (proj2 seen_ids_are_admitted)).
  vm_compute. reflexivity.
Defined.

(** Two rows of the over 49.2 whose texts agree on their first 50
    characters: the first has no result and is skipped, the second is a
    four and is admitted, and the id it leaves in the seen set is the id of
    the skipped row too. *)
Lemma generic_id_in_seen :
  let quiet := "Back of a length on middle and leg, played to the on side" in
  let four := "Back of a length on middle and leg, played to the fence for FOUR" in
  let st := final_state discord_on initial
              [cycle_of "NZ 251/4 (49.2)" [("49.2", quiet); ("49.2", four)]] in
  extract_result quiet = "event"
  ∧ map commentary (run_admitted discord_on
                      [cycle_of "NZ 251/4 (49.2)" [("49.2", quiet); ("49.2", four)]])
    = [four]
  ∧ elements (seen_commentaries st) = [commentary_id "49.2" quiet].
Proof. repeat split; vm_compute; reflexivity. Qed.

(** C5, on the code.  The over text [49th] does not parse and is coerced
    to [-1]; in the first cycle of a run, where the watermark is [-1] too,
    the row is neither above nor below the watermark and is admitted, its
    id entering the seen set. *)
Theorem unparseable_over_admitted_at_start :
  let r := run_cycle discord_on initial
             (cycle_of "NZ 251/4 (49.2)" [("49th", "FOUR! cracking shot")]) in
  PyFloat.float "49th" = None
  ∧ over_to_float "49th" = minus_one
  ∧ PyFloat.lt (over_to_float "49th") (highest_over_seen initial) = false
  ∧ map over (admitted r) = ["49th"]
  ∧ elements (seen_commentaries (after r)) = ["49th - FOUR! cracking shot"].
Proof. repeat split; vm_compute; reflexivity. Qed.

(** The sentinel is not below every parsed position: the text [-2] parses
    to a number below it, and [nan] to one it does not compare with. *)
Lemma sentinel_not_least :
  PyFloat.lt (over_to_float "-2") minus_one = true
  ∧ PyFloat.lt minus_one (over_to_float "nan") = false.
Proof. split; vm_compute; reflexivity. Qed.

(** * Further properties of the code *)

(** ** [send_to_discord] *)

Section SendToDiscord.

Variable http : nat → post_request → post_outcome.

Lemma post_each_requests k message token ids success :
  snd (post_each http k message token ids success)
  = map (discord_post message token) ids.
Proof.
  revert k success. induction ids as [|channel_id rest IH]; intros k success;
    [reflexivity|].
  cbn [post_each map].
  specialize (IH (S k) (if delivered (http k (discord_post message token channel_id))
                        then true else success)).
  destruct (post_each http (S k) message token rest _). cbn in *. congruence.
Qed.

Lemma post_each_success k message token ids success :
  fst (post_each http k message token ids success) = true ↔
  success = true
  ∨ ∃ i channel_id,
      ids !! i = Some channel_id
      ∧ delivered (http (k + i) (discord_post message token channel_id)) = true.
Proof.
  revert k success. induction ids as [|channel_id rest IH]; intros k success.
  - cbn. split; [auto|]. intros [H|(i & c & H & _)]; [exact H|].
    rewrite lookup_nil in H. discriminate.
  - cbn [post_each].
    specialize (IH (S k) (if delivered (http k (discord_post message token channel_id))
                          then true else success)).
    destruct (post_each http (S k) message token rest _) as [r tr]. cbn in *.
    rewrite IH. split.
    + intros [H|(i & c & Hi & Hd)].
      * destruct (delivered _) eqn:Hd; [|left; exact H].
        right. exists 0, channel_id. rewrite Nat.add_0_r. auto.
      * right. exists (S i), c. replace (k + S i) with (S (k + i)) by lia. auto.
    + intros [H|(i & c & Hi & Hd)].
      * left. rewrite H. destruct (delivered _); reflexivity.
      * destruct i as [|i].
        -- cbn in Hi. injection Hi as <-. rewrite Nat.add_0_r in Hd.
           left. rewrite Hd. reflexivity.
        -- right. exists i, c. replace (S (k + i)) with (k + S i) by lia. auto.
Qed.

End SendToDiscord.

(** X1.  Without a token, or without any channel id (an empty list or an
    empty string), [send_to_discord] returns [False] and makes no request,
    whatever the message. *)
Theorem send_to_discord_unconfigured http message token channel_ids :
  token = "" ∨ no_channels channel_ids = true →
  send_to_discord http message token channel_ids = (false, []).
Proof.
  unfold send_to_discord. intros [-> | ->]; [reflexivity|].
  rewrite orb_true_r. reflexivity.
Qed.

Lemma send_to_discord_unconfigured_witness :
  send_to_discord (fun _ _ => Responded 200 "") "Over: 49.2" "" (ChannelList ["1"])
  = (false, []).
Proof.
  apply send_to_discord_unconfigured. left. reflexivity.
Defined.

(** X2.  With a token and at least one channel id, [send_to_discord]
    posts the message once to every channel id, in the order given and
    whatever the earlier requests yielded: a failed or raising request
    neither stops the loop nor is tried again.  A channel id given as a
    string is posted to as the list of that one id. *)
Theorem send_to_discord_posts_each_channel http message token channel_ids :
  token ≠ "" →
  no_channels channel_ids = false →
  snd (send_to_discord http message token channel_ids)
  = map (discord_post message token) (channel_list channel_ids).
Proof.
  intros Htoken Hch. unfold send_to_discord.
  apply String.eqb_neq in Htoken. rewrite Htoken, Hch. cbn [orb].
  apply post_each_requests.
Qed.

Lemma send_to_discord_posts_each_channel_witness :
  snd (send_to_discord (fun _ _ => PostRaised) "Over: 49.2" "token"
         (ChannelList ["1"; "2"]))
  = map (discord_post "Over: 49.2" "token") ["1"; "2"].
Proof.
  apply send_to_discord_posts_each_channel; [discriminate|reflexivity].
Defined.

(** X3.  [send_to_discord] returns [True] exactly when it is configured
    (a token, at least one channel id) and the request to at least one of
    the channels is answered with the status 200 or 201. *)
Theorem send_to_discord_success http message token channel_ids :
  fst (send_to_discord http message token channel_ids) = true ↔
  token ≠ ""
  ∧ no_channels channel_ids = false
  ∧ ∃ i channel_id,
      channel_list channel_ids !! i = Some channel_id
      ∧ delivered (http i (discord_post message token channel_id)) = true.
Proof.
  unfold send_to_discord.
  destruct (String.eqb token "") eqn:Htoken.
  - apply String.eqb_eq in Htoken. cbn. split; [discriminate|]. intros [H _].
    contradiction.
  - apply String.eqb_neq in Htoken. cbn [orb].
    destruct (no_channels channel_ids) eqn:Hch.
    + cbn. split; [discriminate|]. intros (_ & H & _). discriminate.
    + rewrite post_each_success. cbn. split.
      * intros [H|H]; [discriminate|auto].
      * intros (_ & _ & H). right. exact H.
Qed.

(** ** What a scan admits *)

Section ScanAdmits.

Implicit Types (sc : scan) (st : tracker) (e : entry).

Lemma process_row_scan_ok p seen0 sc row :
  row ∈ page_rows p →
  scan_ok p seen0 sc →
  scan_ok p seen0 (process_row (current_score p) sc row).
Proof.
  intros Hrow (Hfrom & Hnodup & Hfresh & Hseen & Hflag).
  destruct row as [[over_num|] text]; [|repeat split; assumption].
  rewrite process_row_eq.
  destruct (admissible _ _ _) eqn:Hadm; [|repeat split; assumption].
  unfold admissible in Hadm.
  apply andb_true_iff in Hadm as [Hadm _].
  apply andb_true_iff in Hadm as [Hnew _].
  apply negb_true_iff, bool_decide_eq_false_1 in Hnew.
  rewrite Hseen in Hnew.
  unfold scan_ok, admit_row;
    cbn [vars seen_commentaries new_commentaries new_commentary_found].
  split; [|split; [|split; [|split]]].
  - apply Forall_app. split; [exact Hfrom|].
    constructor; [|constructor]. cbn. auto.
  - rewrite map_app. cbn [map]. apply NoDup_app. split; [exact Hnodup|]. split.
    + intros k Hk Hk'. apply list_elem_of_singleton in Hk'. subst k.
      apply Hnew. apply elem_of_union. right.
      apply elem_of_list_to_set. exact Hk.
    + apply NoDup_singleton.
  - intros e He. apply elem_of_app in He as [He|He]; [auto|].
    apply list_elem_of_singleton in He. subst e. unfold entry_id; cbn.
    intros Hin. apply Hnew. apply elem_of_union. left. exact Hin.
  - rewrite Hseen, map_app. cbn [map]. apply set_eq. intros k.
    rewrite !elem_of_union, !elem_of_list_to_set, elem_of_app,
      list_elem_of_singleton, elem_of_singleton.
    unfold entry_id; cbn. tauto.
  - destruct (new_commentaries sc); reflexivity.
Qed.

Lemma scan_rows_ok p seen0 rows sc :
  (∀ row, row ∈ rows → row ∈ page_rows p) →
  scan_ok p seen0 sc →
  scan_ok p seen0 (fold_left (process_row (current_score p)) rows sc).
Proof.
  revert sc. induction rows as [|r rows IH]; intros sc Hrows Hok; [exact Hok|].
  cbn. apply IH.
  - intros row Hrow. apply Hrows. right. exact Hrow.
  - apply process_row_scan_ok; [apply Hrows; left|exact Hok].
Qed.

Lemma scan_page_ok p st : scan_ok p (seen_commentaries st) (scan_page p st).
Proof.
  rewrite scan_page_rows. apply scan_rows_ok; [auto|].
  unfold scan_ok; cbn. repeat split; try constructor.
  - intros e He. inversion He.
  - rewrite (right_id_L ∅ (∪)). reflexivity.
Qed.

End ScanAdmits.

(** X4.  Every event a cycle admits is a row of the page the cycle
    fetched (its over text and its commentary text), carries the score of
    that page and the result the classifier gives its text. *)
Theorem admitted_events_come_from_page cfg st inp e :
  e ∈ admitted (run_cycle cfg st inp) →
  ∃ p, html_content inp = Some p
       ∧ (Some (over e), commentary e) ∈ page_rows p
       ∧ score e = current_score p
       ∧ result e = extract_result (commentary e).
Proof.
  destruct (html_content inp) as [p|] eqn:Hp.
  - rewrite (run_cycle_fetched _ _ _ _ Hp). cbn [admitted]. intros He.
    exists p. split; [reflexivity|].
    destruct (scan_page_ok p st) as (Hfrom & _).
    rewrite Forall_forall in Hfrom. apply Hfrom, He.
  - rewrite (run_cycle_failed _ _ _ Hp). inversion 1.
Qed.

Lemma admitted_events_come_from_page_witness :
  ∃ p, html_content (cycle_of "NZ 251/4 (49.2)" [("49.2", "FOUR! cracking shot")])
       = Some p
       ∧ (Some "49.2", "FOUR! cracking shot") ∈ page_rows p
       ∧ "NZ 251/4 (49.2)" = current_score p
       ∧ "4" = extract_result "FOUR! cracking shot".
Proof.
  apply (admitted_events_come_from_page discord_on initial
           (cycle_of "NZ 251/4 (49.2)" [("49.2", "FOUR! cracking shot")])
           {| over := "49.2"; commentary := "FOUR! cracking shot";
              result := "4"; score := "NZ 251/4 (49.2)" |}).
  vm_compute. left.
Defined.

(** X5.  The events admitted in one cycle have pairwise distinct ids, and
    none of these ids was in the seen set when the cycle began. *)
Theorem admitted_ids_distinct_and_new cfg st inp :
  NoDup (map entry_id (admitted (run_cycle cfg st inp)))
  ∧ ∀ e, e ∈ admitted (run_cycle cfg st inp) → entry_id e ∉ seen_commentaries st.
Proof.
  destruct (html_content inp) as [p|] eqn:Hp.
  - rewrite (run_cycle_fetched _ _ _ _ Hp). cbn [admitted].
    destruct (scan_page_ok p st) as (_ & Hnodup & Hfresh & _). auto.
  - rewrite (run_cycle_failed _ _ _ Hp). cbn. split; [constructor|].
    intros e He. inversion He.
Qed.

(** X6.  A cycle that does not evict leaves as seen set the one it found
    together with the ids of the events it admitted: nothing else is
    added and nothing is removed. *)
Theorem seen_grows_by_admitted_ids cfg st inp :
  ¬ evicts st inp →
  seen_commentaries (after (run_cycle cfg st inp))
  = seen_commentaries st ∪ list_to_set (map entry_id (admitted (run_cycle cfg st inp))).
Proof.
  unfold evicts. destruct (html_content inp) as [p|] eqn:Hp; intros Hno.
  - rewrite (run_cycle_fetched _ _ _ _ Hp). cbn [after admitted seen_commentaries].
    rewrite evict_small by lia.
    destruct (scan_page_ok p st) as (_ & _ & _ & Hseen & _). exact Hseen.
  - rewrite (run_cycle_failed _ _ _ Hp). cbn. rewrite (right_id_L ∅ (∪)). reflexivity.
Qed.

Lemma seen_grows_by_admitted_ids_witness :
  let c := cycle_of "NZ 251/4 (49.2)" [("49.2", "FOUR! cracking shot")] in
  seen_commentaries (after (run_cycle discord_on initial c))
  = seen_commentaries initial
    ∪ list_to_set (map entry_id (admitted (run_cycle discord_on initial c))).
Proof.
  apply seen_grows_by_admitted_ids. unfold evicts. vm_compute. lia.
Defined.

(** X7.  A cycle that reaches the cap with more than 1000 seen ids ends
    with exactly 500 of them, all taken from the ids it had at that
    point (those it found and those of the events it admitted). *)
Theorem eviction_keeps_500 cfg st inp :
  evicts st inp →
  size (seen_commentaries (after (run_cycle cfg st inp))) = 500
  ∧ seen_commentaries (after (run_cycle cfg st inp))
    ⊆ seen_commentaries st
      ∪ list_to_set (map entry_id (admitted (run_cycle cfg st inp))).
Proof.
  unfold evicts. destruct (html_content inp) as [p|] eqn:Hp; [|contradiction].
  intros Hbig. rewrite (run_cycle_fetched _ _ _ _ Hp).
  cbn [after admitted seen_commentaries].
  destruct (scan_page_ok p st) as (_ & _ & _ & Hseen & _).
  split; [|rewrite <- Hseen; apply evict_subseteq].
  unfold evict. rewrite bool_decide_eq_true_2 by exact Hbig.
  set (s := seen_commentaries (vars (scan_page p st))) in *.
  assert (Hlen : length (as_list (listing inp) s) = size s).
  { rewrite (as_list_perm (listing inp) s). reflexivity. }
  rewrite size_list_to_set.
  - unfold last_n. rewrite length_drop. lia.
  - eapply sublist_NoDup; [|apply sublist_drop].
    rewrite (as_list_perm (listing inp) s). apply NoDup_elements.
Qed.

Lemma eviction_keeps_500_witness :
  let r := run_cycle discord_on crowded (cycle_of "Score not found" []) in
  size (seen_commentaries (after r)) = 500
  ∧ seen_commentaries (after r)
    ⊆ seen_commentaries crowded ∪ list_to_set (map entry_id (admitted r)).
Proof.
  apply eviction_keeps_500.
  unfold evicts. cbn [html_content cycle_of].
  apply Nat.ltb_lt. vm_compute. reflexivity.
Defined.

(** ** The gate, the other way round *)

(** X8.  With Discord disabled no cycle of any run touches the thread
    pool. *)
Theorem disabled_never_dispatches cfg inputs :
  discord_enabled cfg = false → run_effects cfg inputs = [].
Proof.
  intros Hoff. unfold run_effects, run. generalize initial as st.
  induction inputs as [|inp rest IH]; intros st; [reflexivity|].
  cbn [run_from map concat]. rewrite IH, app_nil_r.
  destruct (run_cycle_notify cfg st inp) as [[_ H]|(e & _ & _ & _ & H)];
    rewrite H; [reflexivity|].
  rewrite Hoff. reflexivity.
Qed.

Lemma disabled_never_dispatches_witness :
  run_effects discord_off
    [cycle_of "NZ 251/4 (49.2)" [("49.2", "FOUR! cracking shot")]] = [].
Proof. apply disabled_never_dispatches. reflexivity. Defined.

(** X9.  A cycle that admits at least one event and whose maximum (the
    event [max] picks) has an over text other than [last_sent_over] sets
    [last_sent_over] to that text and, when Discord is enabled, dispatches
    the notification of that event: no such advance goes unnotified. *)
Theorem advance_is_notified cfg st inp first rest :
  admitted (run_cycle cfg st inp) = first :: rest →
  last_sent_over st ≠ Some (over (py_max position first rest)) →
  last_sent_over (after (run_cycle cfg st inp))
    = Some (over (py_max position first rest))
  ∧ effects (run_cycle cfg st inp)
    = if discord_enabled cfg then dispatch cfg (py_max position first rest) else [].
Proof.
  destruct (html_content inp) as [p|] eqn:Hp;
    [|rewrite (run_cycle_failed _ _ _ Hp); discriminate].
  rewrite (run_cycle_fetched _ _ _ _ Hp). cbn [admitted after effects last_sent_over].
  intros Hadm Hne.
  destruct (scan_page_ok p st) as (_ & _ & _ & _ & Hflag).
  unfold notify. rewrite Hflag, Hadm. cbn [nonempty andb].
  change (fun x => over_to_float (over x)) with position.
  rewrite scan_page_last, bool_decide_eq_true_2 by exact Hne.
  split; reflexivity.
Qed.

Lemma advance_is_notified_witness :
  let c := cycle_of "NZ 251/4 (49.2)" [("49.2", "FOUR! cracking shot")] in
  let first := {| over := "49.2"; commentary := "FOUR! cracking shot";
                  result := "4"; score := "NZ 251/4 (49.2)" |} in
  last_sent_over (after (run_cycle discord_on initial c))
    = Some (over (py_max position first []))
  ∧ effects (run_cycle discord_on initial c)
    = if discord_enabled discord_on
      then dispatch discord_on (py_max position first []) else [].
Proof.
  apply advance_is_notified; [reflexivity|discriminate].
Defined.

(** X10.  On positions that are numbers, [max] picks the first of the
    greatest: every event before the one it returns has a strictly smaller
    position, every event after it a smaller or equal one. *)
Theorem py_max_first_of_greatest (first : entry) (rest : list entry) :
  Forall (fun e => PyFloat.is_nan (position e) = false) (first :: rest) →
  ∃ before later,
    first :: rest = before ++ py_max position first rest :: later
    ∧ Forall (fun e => PyFloat.lt (position e)
                                  (position (py_max position first rest)) = true)
             before
    ∧ Forall (fun e => PyFloat.le (position e)
                                  (position (py_max position first rest)) = true)
             later.
Proof.
  intros Hnum. apply Forall_cons in Hnum as [Hfirst Hrest].
  enough (H : ∀ before best later,
             PyFloat.is_nan (position best) = false →
             Forall (fun e => PyFloat.lt (position e) (position best) = true) before →
             Forall (fun e => PyFloat.le (position e) (position best) = true) later →
             ∃ before' later',
               before ++ best :: later ++ rest
               = before' ++ py_max position best rest :: later'
               ∧ Forall (fun e => PyFloat.lt (position e)
                           (position (py_max position best rest)) = true) before'
               ∧ Forall (fun e => PyFloat.le (position e)
                           (position (py_max position best rest)) = true) later').
  { apply (H [] first []); [exact Hfirst|constructor..]. }
  clear first Hfirst.
  induction rest as [|y rest IH]; intros before best later Hbest Hbefore Hlater.
  - exists before, later. rewrite app_nil_r. auto.
  - apply Forall_cons in Hrest as [Hy Hrest]. specialize (IH Hrest).
    cbn [py_max fold_left]. fold (py_max position).
    change (fold_left _ rest ?b) with (py_max position b rest).
    destruct (PyFloat.gt (position y) (position best)) eqn:Hgt.
    + destruct (IH (before ++ best :: later) y [] Hy) as (b' & l' & Heq & H1 & H2).
      * apply Forall_app. split; [|constructor].
        -- eapply Forall_impl; [exact Hbefore|]. intros e He.
           eapply FloatOrder.lt_le_trans; [exact He|apply FloatOrder.lt_le, Hgt].
        -- exact Hgt.
        -- eapply Forall_impl; [exact Hlater|]. intros e He.
           eapply FloatOrder.le_lt_trans; [exact He|exact Hgt].
      * constructor.
      * exists b', l'. rewrite <- Heq, <- app_assoc. auto.
    + destruct (IH before best (later ++ [y]) Hbest Hbefore) as (b' & l' & Heq & H1 & H2).
      * apply Forall_app. split; [exact Hlater|]. constructor; [|constructor].
        apply FloatOrder.not_lt_le; assumption.
      * exists b', l'. rewrite <- Heq, <- app_assoc. auto.
Qed.

Lemma py_max_first_of_greatest_witness :
  let a := {| over := "49.1"; commentary := "1 run"; result := "1 run"; score := "" |} in
  let b := {| over := "49.2"; commentary := "FOUR"; result := "4"; score := "" |} in
  let c := {| over := "49.2"; commentary := "wide"; result := "wide"; score := "" |} in
  ∃ before later,
    [a; b; c] = before ++ py_max position a [b; c] :: later
    ∧ Forall (fun e => PyFloat.lt (position e)
                                  (position (py_max position a [b; c])) = true) before
    ∧ Forall (fun e => PyFloat.le (position e)
                                  (position (py_max position a [b; c])) = true) later.
Proof.
  apply py_max_first_of_greatest.
  repeat constructor.
Defined.

(** ** The watermark as a maximum *)

Section Peak.

Implicit Types (sc : scan) (st : tracker) (e : entry).

Lemma reached_more h0 h events events' :
  reached h0 h events → reached h0 h (events ++ events').
Proof.
  intros [H|(e & He & H)]; [left; exact H|right].
  exists e. split; [apply elem_of_app; left; exact He|exact H].
Qed.

Lemma process_row_reached h0 current_score sc row earlier :
  reached h0 (highest_over_seen (vars sc)) (earlier ++ new_commentaries sc) →
  reached h0 (highest_over_seen (vars (process_row current_score sc row)))
          (earlier ++ new_commentaries (process_row current_score sc row)).
Proof.
  intros Hr. destruct row as [[over_num|] text]; [|exact Hr].
  rewrite process_row_eq. destruct (admissible _ _ _); [|exact Hr].
  unfold admit_row; cbn [vars highest_over_seen new_commentaries].
  rewrite app_assoc.
  destruct (PyFloat.gt _ _); [|apply reached_more, Hr].
  right. eexists. split; [apply elem_of_app; right; left|reflexivity].
Qed.

Lemma scan_reached h0 current_score rows sc earlier :
  reached h0 (highest_over_seen (vars sc)) (earlier ++ new_commentaries sc) →
  let sc' := fold_left (process_row current_score) rows sc in
  reached h0 (highest_over_seen (vars sc')) (earlier ++ new_commentaries sc').
Proof.
  revert sc. induction rows as [|r rows IH]; intros sc Hr; [exact Hr|].
  cbn. apply IH, process_row_reached, Hr.
Qed.

Lemma run_reached h0 cfg inputs st earlier :
  reached h0 (highest_over_seen st) earlier →
  reached h0 (highest_over_seen (final_state cfg st inputs))
          (earlier ++ concat (map admitted (run_from cfg st inputs))).
Proof.
  revert st earlier. induction inputs as [|inp rest IH]; intros st earlier Hr.
  - cbn. rewrite app_nil_r. exact Hr.
  - cbn [run_from map concat]. rewrite app_assoc.
    change (final_state cfg st (inp :: rest))
      with (final_state cfg (after (run_cycle cfg st inp)) rest).
    apply IH. rewrite run_cycle_highest, run_cycle_admitted.
    destruct (html_content inp) as [p|]; [|rewrite app_nil_r; exact Hr].
    apply scan_reached. cbn. rewrite app_nil_r. exact Hr.
Qed.

End Peak.

(** X11.  At every point of a run the watermark is the initial [-1] or the
    position of an admitted event, and it is at least the position of
    every admitted event whose position is a number: it is the greatest
    position admitted so far. *)
Theorem watermark_is_greatest_position cfg inputs :
  let h := highest_over_seen (final_state cfg initial inputs) in
  (h = minus_one ∨ ∃ e, e ∈ run_admitted cfg inputs ∧ h = position e)
  ∧ ∀ e, e ∈ run_admitted cfg inputs →
         PyFloat.is_nan (position e) = false →
         PyFloat.le (position e) h = true.
Proof.
  cbn zeta. split.
  - apply (run_reached minus_one cfg inputs initial []). left. reflexivity.
  - intros e He Hnum.
    destruct (run_history cfg inputs initial [] initial_history) as (_ & Hcov & _).
    rewrite Forall_forall in Hcov.
    destruct (Hcov e He) as [Hnan|Hle]; [congruence|exact Hle].
Qed.

(** ** The classifier, further *)

Section ClassifierMore.

Lemma lower_char_idemp c : PyStr.lower_char (PyStr.lower_char c) = PyStr.lower_char c.
Proof. destruct c as [[] [] [] [] [] [] [] []]; reflexivity. Qed.

Lemma lower_idemp s : PyStr.lower (PyStr.lower s) = PyStr.lower s.
Proof.
  induction s as [|c s IH]; [reflexivity|].
  cbn. rewrite lower_char_idemp, IH. reflexivity.
Qed.

Lemma lower_app a b : PyStr.lower (a +:+ b) = PyStr.lower a +:+ PyStr.lower b.
Proof.
  induction a as [|c a IH]; [reflexivity|].
  simpl. rewrite IH. reflexivity.
Qed.

Lemma prefix_app needle rest : String.prefix needle (needle +:+ rest) = true.
Proof.
  induction needle as [|c needle IH]; [destruct rest; reflexivity|].
  simpl. destruct (ascii_dec c c); [exact IH|contradiction].
Qed.

Lemma contains_here needle rest : needle in_str (needle +:+ rest) = true.
Proof.
  pose proof (prefix_app needle rest) as H.
  destruct (needle +:+ rest); cbn [PyStr.contains]; rewrite H; reflexivity.
Qed.

Lemma contains_later needle a hay :
  needle in_str hay = true → needle in_str (a +:+ hay) = true.
Proof.
  intros H. induction a as [|c a IH]; [exact H|].
  simpl. rewrite IH. apply orb_true_r.
Qed.

Lemma contains_within needle a b : needle in_str (a +:+ needle +:+ b) = true.
Proof. apply contains_later, contains_here. Qed.

End ClassifierMore.

(** X12.  The result of [extract_result] is always one of the eleven
    texts wicket, dot, 1 run, 2 runs, 3 runs, 4, 6, wide, no ball, bye and
    event. *)
Theorem extract_result_range commentary_text :
  extract_result commentary_text ∈ results.
Proof.
  unfold extract_result, results.
  generalize (PyStr.lower commentary_text) as text; intros text.
  destruct ("leg bye" in_str text) eqn:Hleg;
    [rewrite (leg_bye_is_bye _ Hleg)|].
  all: repeat match goal with
              | |- context [if ?b then _ else _] => destruct b
              end.
  all: apply list_elem_of_In; cbn; tauto.
Qed.

(** X13.  The classifier does not look at the case of letters: a text and
    its lower-cased form get the same result. *)
Theorem extract_result_ignores_case commentary_text :
  extract_result (PyStr.lower commentary_text) = extract_result commentary_text.
Proof. unfold extract_result. rewrite lower_idemp. reflexivity. Qed.

(** X14.  A text in which the letters of [out] or of [wicket] occur in
    a row, in any case and anywhere (inside a longer word too), is
    classified as a wicket, whatever else it says. *)
Theorem out_anywhere_is_wicket before word behind :
  PyStr.lower word = "out" ∨ PyStr.lower word = "wicket" →
  extract_result (before +:+ word +:+ behind) = "wicket".
Proof.
  intros Hword. unfold extract_result. rewrite !lower_app.
  destruct Hword as [-> | ->]; rewrite contains_within;
    [rewrite orb_true_r|]; reflexivity.
Qed.

Lemma out_anywhere_is_wicket_witness :
  extract_result ("Length ball " +:+ "OUT" +:+ "side off, four runs") = "wicket".
Proof. apply out_anywhere_is_wicket. left. reflexivity. Defined.

(** ** The sign of a parsed number *)

Section ParsedSign.

(** Rounding a mantissa that is not negative gives a number with the sign
    asked for, never a NaN. *)
Lemma shr_1_nonneg mrs : (0 <= shr_m mrs)%Z → (0 <= shr_m (shr_1 mrs))%Z.
Proof.
  destruct mrs as [m r s]. cbn.
  destruct m as [|[p|p|]|[p|p|]]; cbn; lia.
Qed.

Lemma iter_shr_1_nonneg p mrs :
  (0 <= shr_m mrs)%Z → (0 <= shr_m (SpecFloat.iter_pos shr_1 p mrs))%Z.
Proof.
  revert mrs. induction p as [p IH|p IH|]; intros mrs H; cbn.
  - apply IH, IH, shr_1_nonneg, H.
  - apply IH, IH, H.
  - apply shr_1_nonneg, H.
Qed.

Lemma shr_fexp_nonneg m e l :
  (0 <= m)%Z →
  (0 <= shr_m (fst (shr_fexp PyFloat.prec PyFloat.emax m e l)))%Z.
Proof.
  intros H. unfold shr_fexp, shr.
  assert (Hm : shr_m (shr_record_of_loc m l) = m) by (destruct l as [|[]]; reflexivity).
  destruct (_ - e)%Z; cbn [fst]; [lia| |lia].
  apply iter_shr_1_nonneg. lia.
Qed.

Lemma round_nearest_even_nonneg m l : (0 <= m)%Z → (0 <= round_nearest_even m l)%Z.
Proof.
  intros H. unfold round_nearest_even.
  destruct l as [|[]]; try destruct (Z.even m); lia.
Qed.

Lemma binary_round_aux_signed neg m e l :
  (0 <= m)%Z → signed neg (binary_round_aux PyFloat.prec PyFloat.emax neg m e l).
Proof.
  intros H. unfold binary_round_aux.
  pose proof (shr_fexp_nonneg m e l H) as H1.
  destruct (shr_fexp PyFloat.prec PyFloat.emax m e l) as [mrs' e']. cbn [fst] in H1.
  pose proof (shr_fexp_nonneg _ e' loc_Exact
                (round_nearest_even_nonneg _ (loc_of_shr_record mrs') H1)) as H2.
  destruct (shr_fexp PyFloat.prec PyFloat.emax _ e' loc_Exact) as [mrs'' e''].
  cbn [fst] in H2.
  destruct (shr_m mrs''); [reflexivity| |lia].
  destruct (_ <=? _)%Z; reflexivity.
Qed.

Lemma binary_round_signed neg m e :
  signed neg (binary_round PyFloat.prec PyFloat.emax neg m e).
Proof.
  unfold binary_round. destruct (shl_align _ _ _).
  apply binary_round_aux_signed. lia.
Qed.

Lemma of_decimal_signed neg m e10 : signed neg (PyFloat.of_decimal neg m e10).
Proof.
  unfold PyFloat.of_decimal. destruct m as [|p|p]; [reflexivity| |reflexivity].
  destruct (0 <=? e10)%Z eqn:He.
  - apply Z.leb_le in He.
    assert (Hpos : (0 < Z.pos p * 10 ^ e10)%Z)
      by (apply Z.mul_pos_pos; [lia|apply Z.pow_pos_nonneg; lia]).
    unfold binary_normalize.
    destruct neg; cbn [cond_Zopp];
      destruct (Z.pos p * 10 ^ e10)%Z eqn:E; cbn [Z.opp]; try lia;
      apply binary_round_signed.
  - unfold SFdiv, SFdiv_core_binary.
    match goal with
    | |- context [Z.div_eucl ?a ?b] =>
        pose proof (Z.div_pos a b) as Hq; unfold Z.div in Hq;
        destruct (Z.div_eucl a b) as [q r]
    end.
    replace (xorb neg false) with neg by (destruct neg; reflexivity).
    apply binary_round_aux_signed. apply Hq; [|lia].
    destruct (_ - _ - _)%Z; [lia| |lia].
    apply Z.shiftl_nonneg. lia.
Qed.

Lemma parse_number_signed neg body x :
  PyFloat.parse_number neg body = Some x → signed neg x.
Proof.
  unfold PyFloat.parse_number.
  destruct (PyFloat.span_digits body) as [ip r].
  destruct (match r with
            | [] => ([], [])
            | c :: r1 => if PyFloat.is_char c "." then PyFloat.span_digits r1 else ([], r)
            end) as [fp r'].
  destruct (ip ++ fp); [discriminate|].
  destruct (PyFloat.parse_exponent r'); [|discriminate].
  intros [= <-]. apply of_decimal_signed.
Qed.

Lemma parse_inf_or_nan_signed neg body x :
  PyFloat.parse_inf_or_nan neg body = Some x →
  PyFloat.is_nan x = true ∨ signed neg x.
Proof.
  unfold PyFloat.parse_inf_or_nan.
  destruct (_ || _); [intros [= <-]; right; reflexivity|].
  destruct (String.eqb _ "nan"); [intros [= <-]; left; reflexivity|discriminate].
Qed.

(** The sign that [float] reads is the minus sign the text begins with. *)
Lemma float_signed s x :
  PyFloat.float s = Some x →
  PyFloat.is_nan x = true ∨ signed (has_minus_sign s) x.
Proof.
  unfold PyFloat.float, has_minus_sign.
  destruct (PyFloat.strip (list_ascii_of_string s)) as [|c l].
  - cbn. discriminate.
  - cbn [PyFloat.underscores_ok].
    destruct (PyFloat.is_char c "_") eqn:Hc; [discriminate|].
    cbn [andb PyFloat.drop_underscores List.filter]. rewrite Hc. cbn [negb].
    destruct (PyFloat.underscores_ok (Some c) l); [|discriminate].
    unfold PyFloat.parse_sign.
    destruct (PyFloat.is_char c "-") eqn:Hminus.
    + destruct (PyFloat.parse_number true _) eqn:Hnum.
      * intros [= <-]. right. eapply parse_number_signed, Hnum.
      * apply parse_inf_or_nan_signed.
    + destruct (PyFloat.is_char c "+").
      * destruct (PyFloat.parse_number false _) eqn:Hnum.
        -- intros [= <-]. right. eapply parse_number_signed, Hnum.
        -- apply parse_inf_or_nan_signed.
      * destruct (PyFloat.parse_number false _) eqn:Hnum.
        -- intros [= <-]. right. eapply parse_number_signed, Hnum.
        -- apply parse_inf_or_nan_signed.
Qed.

Lemma unsigned_above_minus_one x : signed false x → PyFloat.lt minus_one x = true.
Proof. destruct x as [s|s| |s m e]; cbn; intros H; subst; try reflexivity; contradiction. Qed.

End ParsedSign.

(** X15.  An over text that [float] accepts and that does not begin
    (after white space) with a minus sign is coerced to a NaN or to a
    number strictly greater than the sentinel [-1]: among the texts that
    parse, only those with a minus sign and [nan] are not above the
    sentinel. *)
Theorem unsigned_over_above_sentinel over_num :
  PyFloat.float over_num ≠ None →
  has_minus_sign over_num = false →
  PyFloat.is_nan (over_to_float over_num) = true
  ∨ PyFloat.lt minus_one (over_to_float over_num) = true.
Proof.
  intros Hparse Hsign. unfold over_to_float.
  destruct (PyFloat.float over_num) as [x|] eqn:Hx; [|contradiction].
  destruct (float_signed _ _ Hx) as [Hnan|Hs]; [left; exact Hnan|right].
  rewrite Hsign in Hs. apply unsigned_above_minus_one, Hs.
Qed.

Lemma unsigned_over_above_sentinel_witness :
  PyFloat.is_nan (over_to_float "49.2") = true
  ∨ PyFloat.lt minus_one (over_to_float "49.2") = true.
Proof.
  apply unsigned_over_above_sentinel; [vm_compute; discriminate|reflexivity].
Defined.

(** ** The score line *)

Section ScoreLine.

Import Score.

Lemma span_split f s : s = fst (span f s) +:+ snd (span f s).
Proof.
  induction s as [|c s IH]; [reflexivity|]. simpl.
  destruct (f c); [|reflexivity].
  destruct (span f s) as [m r]. simpl in *. rewrite IH at 1. reflexivity.
Qed.

Lemma some_of_splits f : splits (some_of f).
Proof.
  intros s m r. unfold some_of. pose proof (span_split f s) as H.
  destruct (span f s) as [[|c m'] r']; [discriminate|].
  intros [= <- <-]. exact H.
Qed.

Lemma any_of_splits f : splits (any_of f).
Proof.
  intros s m r. unfold any_of. pose proof (span_split f s) as H.
  destruct (span f s). intros [= <- <-]. exact H.
Qed.

Lemma char_inv c s m r : char c s = Some (m, r) → m = String c "" ∧ s = String c r.
Proof.
  unfold char. destruct s as [|d s]; [discriminate|].
  destruct (Ascii.eqb c d) eqn:E; [|discriminate].
  apply Ascii.eqb_eq in E. subst d. intros [= <- <-]. auto.
Qed.

Lemma char_splits c : splits (char c).
Proof. intros s m r H. apply char_inv in H as [-> ->]. reflexivity. Qed.

Lemma maybe_char_splits c : splits (maybe_char c).
Proof.
  intros s m r. unfold maybe_char.
  destruct (char c s) as [[m' r']|] eqn:E.
  - intros [= <- <-]. eapply char_splits, E.
  - intros [= <- <-]. reflexivity.
Qed.

Lemma then_inv p q s m r :
  then_ p q s = Some (m, r) →
  ∃ m1 r1 m2, p s = Some (m1, r1) ∧ q r1 = Some (m2, r) ∧ m = m1 +:+ m2.
Proof.
  unfold then_. destruct (p s) as [[m1 r1]|]; [|discriminate].
  destruct (q r1) as [[m2 r2]|] eqn:Hq; [|discriminate].
  intros [= <- <-]. exists m1, r1, m2. auto.
Qed.

Lemma append_cons c (a b : string) : String c a +:+ b = String c (a +:+ b).
Proof. reflexivity. Qed.

Lemma append_assoc (a b c : string) : (a +:+ b) +:+ c = a +:+ b +:+ c.
Proof.
  induction a as [|x a IH]; [reflexivity|].
  rewrite !append_cons, IH. reflexivity.
Qed.

Lemma then_splits p q : splits p → splits q → splits (then_ p q).
Proof.
  intros Hp Hq s m r H.
  apply then_inv in H as (m1 & r1 & m2 & H1 & H2 & ->).
  rewrite (Hp _ _ _ H1), (Hq _ _ _ H2), append_assoc. reflexivity.
Qed.

Lemma score_pattern_splits : splits score_pattern.
Proof.
  unfold score_pattern.
  repeat first [ apply then_splits | apply char_splits | apply some_of_splits
               | apply any_of_splits | apply maybe_char_splits ].
Qed.

Lemma char_closes : closes (char ")").
Proof. intros s m r H. apply char_inv in H as [-> _]. exists "". reflexivity. Qed.

Lemma then_closes p q : closes q → closes (then_ p q).
Proof.
  intros Hq s m r H.
  apply then_inv in H as (m1 & r1 & m2 & _ & H2 & ->).
  destruct (Hq _ _ _ H2) as [mid ->].
  exists (m1 +:+ mid). rewrite append_assoc. reflexivity.
Qed.

(** A match begins with [NZ] and ends with the closing bracket. *)
Lemma score_pattern_shape s m r :
  score_pattern s = Some (m, r) → ∃ mid, m = "NZ" +:+ mid +:+ ")".
Proof.
  unfold score_pattern. intros H.
  apply then_inv in H as (n & r1 & m1 & Hn & H & ->). apply char_inv in Hn as [-> _].
  apply then_inv in H as (z & r2 & m2 & Hz & H & ->). apply char_inv in Hz as [-> _].
  assert (Hclose : ∃ mid, m2 = mid +:+ ")").
  { revert H. generalize r2 m2 r. repeat apply then_closes. apply char_closes. }
  destruct Hclose as [mid ->]. exists mid. reflexivity.
Qed.

Lemma first_match_found s m :
  first_match s = Some m →
  ∃ before behind mid, s = before +:+ m +:+ behind ∧ m = "NZ" +:+ mid +:+ ")".
Proof.
  induction s as [|c s IH]; cbn [first_match].
  - destruct (score_pattern "") as [[m' r]|] eqn:E; [|discriminate].
    intros [= <-]. destruct (score_pattern_shape _ _ _ E) as [mid Hmid].
    exists "", r, mid. split; [apply (score_pattern_splits _ _ _ E)|exact Hmid].
  - destruct (score_pattern (String c s)) as [[m' r]|] eqn:E.
    + intros [= <-]. destruct (score_pattern_shape _ _ _ E) as [mid Hmid].
      exists "", r, mid. split; [apply (score_pattern_splits _ _ _ E)|exact Hmid].
    + intros H. destruct (IH H) as (before & behind & mid & -> & Hmid).
      exists (String c before), behind, mid. auto.
Qed.

Lemma list_ascii_of_string_app a b :
  list_ascii_of_string (a +:+ b) = list_ascii_of_string a ++ list_ascii_of_string b.
Proof. induction a as [|c a IH]; [reflexivity|]. simpl. rewrite IH. reflexivity. Qed.

(** Stripping a text that neither begins nor ends with white space gives
    the text back. *)
Lemma strip_tight c mid d :
  is_space c = false → is_space d = false →
  strip (String c (mid +:+ String d "")) = String c (mid +:+ String d "").
Proof.
  intros Hc Hd. unfold strip.
  assert (E : list_ascii_of_string (String c (mid +:+ String d ""))
              = c :: list_ascii_of_string mid ++ [d]).
  { cbn [list_ascii_of_string]. rewrite list_ascii_of_string_app. reflexivity. }
  rewrite E. cbn [lstrip]. rewrite Hc.
  cbn [rev]. rewrite rev_unit. cbn [app lstrip]. rewrite Hd.
  cbn [rev]. rewrite rev_unit, rev_involutive. cbn [app].
  rewrite <- E. apply string_of_list_ascii_of_string.
Qed.

Lemma strip_match mid : strip ("NZ" +:+ mid +:+ ")") = "NZ" +:+ mid +:+ ")".
Proof. apply (strip_tight "N" (String "Z" mid) ")"); reflexivity. Qed.

Lemma match_is_score mid :
  "NZ" in_str ("NZ" +:+ mid +:+ ")") = true
  ∧ String.eqb ("NZ" +:+ mid +:+ ")") not_found = false.
Proof. split; [apply contains_here|reflexivity]. Qed.

Lemma by_pattern_spec text :
  (first_match text = None ∧ by_pattern text not_found = not_found)
  ∨ (∃ m, first_match text = Some m ∧ by_pattern text not_found = m
          ∧ "NZ" in_str m = true ∧ String.eqb m not_found = false).
Proof.
  unfold by_pattern. destruct (first_match text) as [m|] eqn:E; [right|left; auto].
  destruct (first_match_found _ _ E) as (_ & _ & mid & _ & ->).
  exists ("NZ" +:+ mid +:+ ")"). rewrite strip_match.
  destruct (match_is_score mid). auto.
Qed.

Lemma nz_is_score text : "NZ" in_str text = true → String.eqb text not_found = false.
Proof.
  intros H. apply String.eqb_neq. intros ->. vm_compute in H. discriminate.
Qed.

End ScoreLine.

(** X16.  What the pattern finds in a text is a part of that text that
    begins with [NZ] and ends with a closing bracket. *)
Theorem first_match_is_part_of_text s m :
  Score.first_match s = Some m →
  ∃ before behind mid,
    s = before +:+ m +:+ behind ∧ m = "NZ" +:+ mid +:+ ")".
Proof. apply first_match_found. Qed.

Lemma first_match_is_part_of_text_witness :
  ∃ before behind mid,
    "<h2>NZ 251/4 (49.2)</h2>" = before +:+ "NZ 251/4 (49.2)" +:+ behind
    ∧ "NZ 251/4 (49.2)" = "NZ" +:+ mid +:+ ")".
Proof.
  apply (first_match_is_part_of_text "<h2>NZ 251/4 (49.2)</h2>" "NZ 251/4 (49.2)").
  vm_compute. reflexivity.
Defined.

(** X17.  The score line is the text [Score not found] or a text in which
    [NZ] occurs, whatever the document holds. *)
Theorem score_is_found_or_sentinel src :
  Score.extract_score src = Score.not_found
  ∨ "NZ" in_str (Score.extract_score src) = true.
Proof.
  unfold Score.extract_score.
  destruct (by_pattern_spec (Score.html_text src)) as [[_ ->]|(m & _ & -> & Hnz & Hne)].
  2: { rewrite !Hne. right. exact Hnz. }
  rewrite String.eqb_refl. unfold Score.by_heading.
  destruct (List.find _ (Score.score_elements src)) as [text|] eqn:Hfind.
  { apply List.find_some in Hfind as [_ Hnz].
    apply andb_true_iff in Hnz as [Hnz _]. apply andb_true_iff in Hnz as [Hnz _].
    rewrite !(nz_is_score _ Hnz). right. exact Hnz. }
  rewrite String.eqb_refl. unfold Score.by_min_bat.
  destruct (List.find _ (Score.min_bat_divs src)) as [[text|]|] eqn:Hfind2.
  { apply List.find_some in Hfind2 as [_ Hnz].
    rewrite !(nz_is_score _ Hnz). right. exact Hnz. }
  { apply List.find_some in Hfind2 as [_ H]. discriminate. }
  rewrite String.eqb_refl.
  destruct (by_pattern_spec (Score.all_text src)) as [[_ ->]|(m & _ & -> & Hnz & _)];
    [left; reflexivity|right; exact Hnz].
Qed.

(** X18.  The four stages are taken in order and the first that finds a
    score decides: a match of the pattern in the fetched text is the
    score; failing that, the first selected heading in which [NZ], a slash
    and an opening bracket occur; failing that, the first heading of a
    minimal batting row in which [NZ] occurs; failing that, what the
    pattern finds in the text of the document, or [Score not found]. *)
Theorem score_stages_in_order src :
  (∀ m, Score.first_match (Score.html_text src) = Some m →
        Score.extract_score src = m)
  ∧ (Score.first_match (Score.html_text src) = None →
     (∀ text,
         List.find (fun text => ("NZ" in_str text) && ("/" in_str text)
                                && ("(" in_str text))
                   (Score.score_elements src) = Some text →
         Score.extract_score src = text)
     ∧ (List.find (fun text => ("NZ" in_str text) && ("/" in_str text)
                               && ("(" in_str text))
                  (Score.score_elements src) = None →
        (∀ text,
            List.find (fun h2 => match h2 with
                                 | Some text => "NZ" in_str text
                                 | None => false
                                 end) (Score.min_bat_divs src) = Some (Some text) →
            Score.extract_score src = text)
        ∧ (List.find (fun h2 => match h2 with
                                | Some text => "NZ" in_str text
                                | None => false
                                end) (Score.min_bat_divs src) = None →
           Score.extract_score src
           = match Score.first_match (Score.all_text src) with
             | Some m => m
             | None => Score.not_found
             end))).
Proof.
  unfold Score.extract_score. split.
  - intros m Hm.
    destruct (by_pattern_spec (Score.html_text src))
      as [[Hnone _]|(m' & Hm' & -> & _ & Hne)]; [congruence|].
    rewrite !Hne. congruence.
  - intros Hnone.
    destruct (by_pattern_spec (Score.html_text src))
      as [[_ ->]|(m' & Hm' & _)]; [|congruence].
    rewrite String.eqb_refl. unfold Score.by_heading. split.
    + intros text Hfind. rewrite Hfind.
      apply List.find_some in Hfind as [_ Hnz].
      apply andb_true_iff in Hnz as [Hnz _]. apply andb_true_iff in Hnz as [Hnz _].
      rewrite !(nz_is_score _ Hnz). reflexivity.
    + intros Hfind. rewrite Hfind, String.eqb_refl. unfold Score.by_min_bat. split.
      * intros text Hfind2. rewrite Hfind2.
        apply List.find_some in Hfind2 as [_ Hnz].
        rewrite !(nz_is_score _ Hnz). reflexivity.
      * intros Hfind2. rewrite Hfind2, String.eqb_refl.
        destruct (by_pattern_spec (Score.all_text src))
          as [[-> ->]|(m & -> & -> & _)]; reflexivity.
Qed.

Lemma score_stages_in_order_witness :
  Score.extract_score
    {| Score.html_text := "<h2>NZ 251/4 (49.2)</h2>";
       Score.score_elements := ["NZ 250/4 (49.1) CRR: 5.1"];
       Score.min_bat_divs := [];
       Score.all_text := "" |}
  = "NZ 251/4 (49.2)".
Proof.
  apply (proj1 (score_stages_in_order _)). vm_compute. reflexivity.
Defined.

(** ** Rows that grow, and polls that fetch nothing *)



(** X20.  A poll whose three requests all fail, or whose response has an
    empty text, leaves the tracker as it is, admits and dispatches
    nothing, and sleeps 5 after what the fetch itself did. *)
Theorem poll_without_content cfg parse ls st net :
  fst (fetch_page net) = None ∨ fst (fetch_page net) = Some "" →
  poll cfg parse ls st net
  = ({| after := st; admitted := []; effects := [] |},
     snd (fetch_page net) ++ [Sleep 5]).
Proof.
  intros H. unfold poll.
  assert (Hnone : fetched_page parse net = None)
    by (unfold fetched_page; destruct H as [-> | ->]; reflexivity).
  rewrite Hnone. reflexivity.
Qed.

Lemma poll_without_content_witness :
  poll discord_on (fun _ => page_of "Score not found" []) sorted_listing initial
       (fun _ => None)
  = ({| after := initial; admitted := []; effects := [] |},
     [Get 0; Sleep 2; Get 1; Sleep 4; Get 2; Sleep 5]).
Proof.
  apply (poll_without_content discord_on (fun _ => page_of "Score not found" [])
           sorted_listing initial (fun _ => None)).
  left. reflexivity.
Defined.
